(** * cod-stats-parser: the H1/H2/table extraction of [parse.ts]

    A shallow embedding of [src/lib/functions/parse.ts] and
    [src/lib/constants/whitelist.ts], together with the parts of the
    [htmlparser2] / [domhandler] / [domutils] interface the code relies on
    (the node kinds, [nextSibling], [DomUtils.findAll],
    [DomUtils.textContent]) and the parts of the JavaScript semantics it
    relies on ([String.prototype.trim], [Array.prototype.includes], property
    assignment on plain objects and the order in which own properties are
    enumerated). *)

From Stdlib Require Import String Ascii NArith.
From stdpp Require Import base tactics option list.

Local Open Scope nat_scope.

(** ** JavaScript strings *)

(** A JavaScript string is a sequence of UTF-16 code units. *)
Definition jsstring := list N.

(** String literals of the source, all of them ASCII. *)
Fixpoint lit (s : string) : jsstring :=
  match s with
  | EmptyString => []
  | String a s' => N_of_ascii a :: lit s'
  end.

(** The code units removed by [trim]: ECMAScript WhiteSpace (TAB, VT, FF,
    ZWNBSP and the Unicode space separators) and LineTerminator. *)
Definition isWhiteSpace (c : N) : bool :=
  ((c =? 0x09) || (c =? 0x0A) || (c =? 0x0B) || (c =? 0x0C) || (c =? 0x0D)
   || (c =? 0x20) || (c =? 0xA0) || (c =? 0x1680)
   || ((0x2000 <=? c) && (c <=? 0x200A))
   || (c =? 0x2028) || (c =? 0x2029) || (c =? 0x202F) || (c =? 0x205F)
   || (c =? 0x3000) || (c =? 0xFEFF))%N.

Fixpoint trimStart (s : jsstring) : jsstring :=
  match s with
  | [] => []
  | c :: s' => if isWhiteSpace c then trimStart s' else s
  end.

Definition trimEnd (s : jsstring) : jsstring := rev (trimStart (rev s)).

(** [String.prototype.trim] *)
Definition trim (s : jsstring) : jsstring := trimEnd (trimStart s).

(** [Array.prototype.includes] on an array of strings: SameValueZero on
    strings is equality of the code unit sequences. *)
Definition includes (arr : list jsstring) (s : jsstring) : bool :=
  existsb (fun x => bool_decide (x = s)) arr.

(** ** whitelist.ts *)

Definition H1_WHITELIST : list jsstring :=
  [ lit "Call of Duty: Black Ops 6";
    lit "Call of Duty: Black Ops Cold War";
    lit "Activision Account Shared";
    lit "Call of Duty: Modern Warfare";
    lit "Call of Duty: Modern Warfare II";
    lit "Call of Duty: Modern Warfare III";
    lit "Call of Duty: Vanguard";
    lit "Call of Duty: Warzone 2.0";
    lit "Call of Duty: Warzone Mobile" ].

Definition H2_WHITELIST : list jsstring :=
  [ lit "Campaign Checkpoint Data (reverse chronological)";
    lit "Multiplayer Match Data (reverse chronological)";
    lit "PromoCodes";
    lit "Zombies Match Data (reverse chronological)";
    lit "Campaign Data (reverse chronological)";
    lit "Sessions Data (reverse chronological)";
    lit "Zombies Data (reverse chronological)";
    lit "Gamertag Data (reverse chronological)";
    lit "CoOp Match Data (reverse chronological)";
    lit "Mobile Hardware Data (reverse chronological)" ].

(** ** The document tree (domhandler) *)

(** The nodes [parseDocument] builds.  Attributes are left out: the code
    never reads them. *)
#[warnings="-register-all"]
Inductive node : Type :=
  | Text (data : jsstring)
  | Comment (data : jsstring)
  | ProcessingInstruction (name data : jsstring)
  | Element (name : jsstring) (children : list node)
  | CDATA (children : list node)
  | Document (children : list node).

(** domelementtype's [ElementType] *)
Inductive ElementType : Type :=
  | ETRoot | ETText | ETDirective | ETComment | ETScript | ETStyle | ETTag
  | ETCDATA.

Definition ElementType_eqb (a b : ElementType) : bool :=
  match a, b with
  | ETRoot, ETRoot | ETText, ETText | ETDirective, ETDirective
  | ETComment, ETComment | ETScript, ETScript | ETStyle, ETStyle
  | ETTag, ETTag | ETCDATA, ETCDATA => true
  | _, _ => false
  end.

(** [node.type]; an [Element] is a script, a style or a plain tag by its
    name, as in domhandler's [Element] constructor. *)
Definition type (n : node) : ElementType :=
  match n with
  | Text _ => ETText
  | Comment _ => ETComment
  | ProcessingInstruction _ _ => ETDirective
  | Element name _ =>
      if bool_decide (name = lit "script") then ETScript
      else if bool_decide (name = lit "style") then ETStyle
      else ETTag
  | CDATA _ => ETCDATA
  | Document _ => ETRoot
  end.

(** [node.name], undefined on the nodes without a name. *)
Definition name (n : node) : option jsstring :=
  match n with
  | Element nm _ => Some nm
  | ProcessingInstruction nm _ => Some nm
  | _ => None
  end.

(** [node.children] on the nodes for which domhandler's [hasChildren]
    holds, empty otherwise. *)
Definition children (n : node) : list node :=
  match n with
  | Element _ cs | CDATA cs | Document cs => cs
  | _ => []
  end.

(** domhandler's [isTag] *)
Definition isTag (n : node) : bool :=
  ElementType_eqb (type n) ETTag || ElementType_eqb (type n) ETScript
  || ElementType_eqb (type n) ETStyle.

(** The tests the source writes as
    [node.type === 'tag' && node.name === '<tag>']. *)
Definition tagNamed (tag : string) (n : node) : bool :=
  ElementType_eqb (type n) ETTag && bool_decide (name n = Some (lit tag)).

(** [DomUtils.textContent]: the data of the text nodes below a node,
    concatenated in document order; comments and directives give the empty
    string. *)
Fixpoint textContent (n : node) : jsstring :=
  match n with
  | Element _ cs | CDATA cs | Document cs => concat (map textContent cs)
  | Text d => d
  | _ => []
  end.

(** *** Node references

    The code holds references to nodes and compares them by identity
    ([sibling !== nextH1Node]).  A reference is modelled as the place of
    the node in the tree (its index among the children of its parent, and
    the indexes [up] from its parent up to the root) together with the
    node itself and the siblings that follow it, so that [nextSibling] can
    be followed from the reference alone.  Two references into one tree
    denote the same node exactly when their places are equal. *)
Record ref : Type := Ref {
  up : list nat;
  index : nat;
  here : node;
  following : list node
}.

(** [node.nextSibling] ([null] is [None]) *)
Definition nextSibling (r : ref) : option ref :=
  match following r with
  | [] => None
  | n :: rest =>
      Some {| up := up r; index := S (index r); here := n; following := rest |}
  end.

(** [a === b] on node references *)
Definition sameNode (a b : ref) : bool :=
  bool_decide (up a = up b) && bool_decide (index a = index b).

(** The reference to the root of a document: no parent, no siblings. *)
Definition rootRef (root : node) : ref :=
  {| up := []; index := 0; here := root; following := [] |}.

(** [DomUtils.findAll(test, node)]: all elements at or below [node] that
    pass [test], in document order (pre-order, depth first).  The test is
    only applied to elements ([isTag]); the search descends into every node
    that has children. *)
Fixpoint findAll_node (test : node -> bool) (p : list nat) (i : nat)
    (n : node) (sibs : list node) {struct n} : list ref :=
  let self :=
    if isTag n && test n
    then [ {| up := p; index := i; here := n; following := sibs |} ]
    else [] in
  let descend :=
    fix go (j : nat) (cs : list node) {struct cs} : list ref :=
      match cs with
      | [] => []
      | c :: cs' => findAll_node test (i :: p) j c cs' ++ go (S j) cs'
      end in
  self ++
  match n with
  | Element _ cs | CDATA cs | Document cs => descend 0 cs
  | _ => []
  end.

Definition findAll (test : node -> bool) (r : ref) : list ref :=
  findAll_node test (up r) (index r) (here r) (following r).

(** ** Plain JavaScript objects

    An object created by [{}] and used as a string-keyed map.  The list
    holds its own properties in the order they were created. *)
Definition obj (V : Type) : Type := list (jsstring * V).

(** [o[k]] for an own property ([undefined] is [None]).  The keys the code
    reads are whitelisted heading texts, none of which names a property
    inherited from [Object.prototype]. *)
Fixpoint obj_get {V} (k : jsstring) (o : obj V) : option V :=
  match o with
  | [] => None
  | (k', v) :: o' => if bool_decide (k' = k) then Some v else obj_get k o'
  end.

(** [o[k] = v] on own data properties: an existing property keeps its
    place and takes the new value, a new property is added last. *)
Fixpoint obj_set {V} (k : jsstring) (v : V) (o : obj V) : obj V :=
  match o with
  | [] => [(k, v)]
  | (k', v') :: o' =>
      if bool_decide (k' = k) then (k, v) :: o' else (k', v') :: obj_set k v o'
  end.

(** *** The order of the own properties

    The value of a decimal digit, and of a sequence of decimal digits. *)
Definition digit (c : N) : option N :=
  if ((0x30 <=? c) && (c <=? 0x39))%N then Some (c - 0x30)%N else None.

Fixpoint digits (acc : N) (s : jsstring) : option N :=
  match s with
  | [] => Some acc
  | c :: s' =>
      match digit c with
      | Some d => digits (10 * acc + d)%N s'
      | None => None
      end
  end.

(** The value of a key that is an array index: a decimal numeral without
    a leading zero, below 2^32 - 1. *)
Definition arrayIndex (k : jsstring) : option N :=
  match k with
  | [] => None
  | c :: s' =>
      if (c =? 0x30)%N && negb (bool_decide (s' = [])) then None
      else
        match digits 0%N k with
        | Some v => if (v <? 4294967295)%N then Some v else None
        | None => None
        end
  end.

(** The array indexes among the keys [ks], sorted by their values. *)
Fixpoint insertIndex (i : N) (k : jsstring) (l : list (N * jsstring))
    : list (N * jsstring) :=
  match l with
  | [] => [(i, k)]
  | (j, k') :: l' =>
      if (i <? j)%N then (i, k) :: l else (j, k') :: insertIndex i k l'
  end.

Fixpoint indexKeys (ks : list jsstring) : list (N * jsstring) :=
  match ks with
  | [] => []
  | k :: ks' =>
      match arrayIndex k with
      | Some i => insertIndex i k (indexKeys ks')
      | None => indexKeys ks'
      end
  end.

(** The order in which the own properties are enumerated
    ([Object.keys], [JSON.stringify]): array indexes in ascending numeric
    order, then the other keys in the order of their creation. *)
Definition ownKeys {V} (o : obj V) : list jsstring :=
  map snd (indexKeys (map fst o))
  ++ filter (fun k => arrayIndex k = None) (map fst o).

(** [Object.entries(o)] *)
Definition entries {V} (o : obj V) : list (jsstring * V) :=
  omap (fun k => (fun v => (k, v)) <$> obj_get k o) (ownKeys o).

(** The row records of [parseSingleTable] hold strings.  Assigning a
    string to [__proto__] on such an object reaches the setter inherited
    from [Object.prototype], which ignores every value that is neither an
    object nor [null]: no own property is created. *)
Definition row_set (k : jsstring) (v : jsstring) (o : obj jsstring)
    : obj jsstring :=
  if bool_decide (k = lit "__proto__") then o else obj_set k v o.

(** [Record<string, string>] and the [ParsedData] interface *)
Definition record : Type := obj jsstring.
Definition ParsedData : Type := obj (obj (list record)).

(** ** Outcomes

    A call of the code returns, throws a [TypeError] (reading a property
    of [undefined]) or, in the model only, runs out of the bound on the
    iterations of its [while] loops. *)
Inductive outcome (A : Type) : Type :=
  | Done (a : A)
  | TypeError
  | OutOfFuel.
Arguments Done {A} a.
Arguments TypeError {A}.
Arguments OutOfFuel {A}.

#[global] Instance outcome_bind : MBind outcome := fun A B f m =>
  match m with
  | Done a => f a
  | TypeError => TypeError
  | OutOfFuel => OutOfFuel
  end.

(** ** parse.ts *)

(** *** parseSingleTable *)

(** [tds.forEach((td, i) => { rowObj[headers[i]] = textContent(td).trim() })]
    The loop runs over [tds]; [headers[i]] is defined because the two
    arrays have the same length when the loop is entered (should it not
    be, the key would be the string [undefined]). *)
Fixpoint forEach_td (headers : list jsstring) (tds : list ref) (i : nat)
    (rowObj : record) : record :=
  match tds with
  | [] => rowObj
  | td :: tds' =>
      let key := default (lit "undefined") (headers !! i) in
      forEach_td headers tds' (S i)
        (row_set key (trim (textContent (here td))) rowObj)
  end.

(** The body of [for (const row of rows)] *)
Definition parseSingleTable_row (headers : list jsstring) (row : ref)
    (tableData : list record) : list record :=
  let tds := findAll (tagNamed "td") row in
  if bool_decide (length tds = length headers)
  then tableData ++ [forEach_td headers tds 0 []]
  else tableData.

(** [for (const row of rows) { ... }] *)
Fixpoint parseSingleTable_rows (headers : list jsstring) (rows : list ref)
    (tableData : list record) : list record :=
  match rows with
  | [] => tableData
  | row :: rows' =>
      parseSingleTable_rows headers rows'
        (parseSingleTable_row headers row tableData)
  end.

Definition parseSingleTable (tableNode : ref) : list record :=
  let headers :=
    map (fun th => trim (textContent (here th)))
        (findAll (tagNamed "th") tableNode) in
  let rows := findAll (tagNamed "tr") tableNode in
  parseSingleTable_rows headers rows [].

(** *** findNextTableSibling *)

(** The [while (next)] loop; [fuel] bounds the number of times its body
    runs. *)
Fixpoint findNextTableSibling_loop (fuel : nat) (next : option ref)
    : outcome (option ref) :=
  match next with
  | None => Done None
  | Some nx =>
      match fuel with
      | O => OutOfFuel
      | S fuel' =>
          if tagNamed "h2" (here nx) then Done None
          else if tagNamed "h1" (here nx) then Done None
          else if tagNamed "table" (here nx) then Done (Some nx)
          else findNextTableSibling_loop fuel' (nextSibling nx)
      end
  end.

Definition findNextTableSibling (fuel : nat) (h2Node : ref)
    : outcome (option ref) :=
  findNextTableSibling_loop fuel (nextSibling h2Node).

(** *** parseHtmlH1H2Tables *)

(** [parsed[h1Text][h2Text] = tableData]: the object stored under
    [h1Text] is read and updated in place. *)
Definition assignTable (h1Text h2Text : jsstring) (tableData : list record)
    (parsed : ParsedData) : outcome ParsedData :=
  match obj_get h1Text parsed with
  | Some sub => Done (obj_set h1Text (obj_set h2Text tableData sub) parsed)
  | None => TypeError
  end.

(** [sibling !== nextH1Node], where [nextH1Node] may be [null] *)
Definition notBoundary (sibling : ref) (nextH1Node : option ref) : bool :=
  match nextH1Node with
  | Some b => negb (sameNode sibling b)
  | None => true
  end.

(** The [while (sibling && sibling !== nextH1Node)] loop.  [bound] is the
    iteration bound handed to [findNextTableSibling], [fuel] the one of
    this loop. *)
Fixpoint parseHtmlH1H2Tables_siblings (bound fuel : nat) (h1Text : jsstring)
    (nextH1Node : option ref) (sibling : option ref) (parsed : ParsedData)
    : outcome ParsedData :=
  match sibling with
  | None => Done parsed
  | Some sib =>
      if notBoundary sib nextH1Node then
        match fuel with
        | O => OutOfFuel
        | S fuel' =>
            if tagNamed "h2" (here sib) then
              let h2Text := trim (textContent (here sib)) in
              if negb (includes H2_WHITELIST h2Text) then
                parseHtmlH1H2Tables_siblings bound fuel' h1Text nextH1Node
                  (nextSibling sib) parsed
              else
                tableNode ← findNextTableSibling bound sib;
                parsed' ←
                  match tableNode with
                  | Some t => assignTable h1Text h2Text (parseSingleTable t) parsed
                  | None => Done parsed
                  end;
                parseHtmlH1H2Tables_siblings bound fuel' h1Text nextH1Node
                  (nextSibling sib) parsed'
            else
              parseHtmlH1H2Tables_siblings bound fuel' h1Text nextH1Node
                (nextSibling sib) parsed
        end
      else Done parsed
  end.

(** The body of [for (let i = 0; i < h1Elements.length; i++)] *)
Definition parseHtmlH1H2Tables_h1 (bound : nat) (h1Elements : list ref)
    (i : nat) (parsed : ParsedData) : outcome ParsedData :=
  match h1Elements !! i with
  | None => TypeError
  | Some h1Node =>
      let h1Text := trim (textContent (here h1Node)) in
      if negb (includes H1_WHITELIST h1Text) then Done parsed
      else
        let parsed := obj_set h1Text [] parsed in
        let nextH1Node := h1Elements !! (i + 1) in
        parseHtmlH1H2Tables_siblings bound bound h1Text nextH1Node
          (nextSibling h1Node) parsed
  end.

(** The [for] loop itself: [todo] iterations are left, from index [i]. *)
Fixpoint parseHtmlH1H2Tables_for (bound : nat) (h1Elements : list ref)
    (i todo : nat) (parsed : ParsedData) : outcome ParsedData :=
  match todo with
  | O => Done parsed
  | S todo' =>
      parsed' ← parseHtmlH1H2Tables_h1 bound h1Elements i parsed;
      parseHtmlH1H2Tables_for bound h1Elements (S i) todo' parsed'
  end.

(** [const h1Elements = DomUtils.findAll(..., root)] *)
Definition h1Elements (root : node) : list ref :=
  findAll (tagNamed "h1") (rootRef root).

(** The extraction from the parsed document: everything in
    [parseHtmlH1H2Tables] after [const root = parseDocument(html)]. *)
Definition extract (bound : nat) (root : node) : outcome ParsedData :=
  let h1s := h1Elements root in
  parseHtmlH1H2Tables_for bound h1s 0 (length h1s) [].

Section Parser.
(** [parseDocument] of htmlparser2, an external library: any function
    from the text to a document tree (the parser is lenient and is taken
    to return a tree for every text). *)
Variable parseDocument : jsstring -> node.

Definition parseHtmlH1H2Tables (bound : nat) (html : jsstring)
    : outcome ParsedData :=
  let root := parseDocument html in
  extract bound root.
End Parser.

(** ** Vocabulary for the statements *)

(** The text of a cell or heading as the code reads it. *)
Definition trimmedText (r : ref) : jsstring := trim (textContent (here r)).

(** The siblings after a node as a list, in document order: what following
    [nextSibling] yields until it gives [null].  [siblingsAt p i l] are
    the references to the nodes [l], the first of which has index [i] under
    the parent at [p]. *)
Fixpoint siblingsAt (p : list nat) (i : nat) (l : list node) : list ref :=
  match l with
  | [] => []
  | n :: rest =>
      {| up := p; index := i; here := n; following := rest |}
      :: siblingsAt p (S i) rest
  end.

Definition nextSiblings (r : ref) : list ref :=
  siblingsAt (up r) (S (index r)) (following r).

(** The node at which the scan of [findNextTableSibling] stops: a
    heading of either level or a table. *)
Definition stopsScan (r : ref) : bool :=
  tagNamed "h2" (here r) || tagNamed "h1" (here r)
  || tagNamed "table" (here r).

(** The first table among [l] that no heading precedes. *)
Fixpoint firstTable (l : list ref) : option ref :=
  match l with
  | [] => None
  | nx :: l' =>
      if tagNamed "h2" (here nx) || tagNamed "h1" (here nx) then None
      else if tagNamed "table" (here nx) then Some nx
      else firstTable l'
  end.

(** The siblings the section loop of [parseHtmlH1H2Tables] visits from
    the chain [l]: those before the first one that is [nextH1Node]. *)
Fixpoint untilBoundary (nextH1Node : option ref) (l : list ref) : list ref :=
  match l with
  | [] => []
  | s :: l' =>
      if notBoundary s nextH1Node then s :: untilBoundary nextH1Node l' else []
  end.

Definition sectionSiblings (h1Node : ref) (nextH1Node : option ref)
    : list ref :=
  untilBoundary nextH1Node (nextSiblings h1Node).

(** A sub-level heading the section loop accepts: an [h2] element whose
    trimmed text is in [H2_WHITELIST]. *)
Definition acceptedH2 (sib : ref) : bool :=
  tagNamed "h2" (here sib)
  && includes H2_WHITELIST (trim (textContent (here sib))).

(** What visiting one sibling does to the sub-map of the section. *)
Definition storeTable (sub : obj (list record)) (sib : ref)
    : obj (list record) :=
  if acceptedH2 sib then
    match firstTable (nextSiblings sib) with
    | Some t => obj_set (trim (textContent (here sib))) (parseSingleTable t) sub
    | None => sub
    end
  else sub.

(** The sub-map after visiting the siblings [sibs] in order. *)
Definition sectionTables (sibs : list ref) (sub : obj (list record))
    : obj (list record) :=
  fold_left storeTable sibs sub.

(** The result after the iterations of the [for] loop for the headings
    [h1s], each bounded by the heading after it. *)
Fixpoint allSections (h1s : list ref) (parsed : ParsedData) : ParsedData :=
  match h1s with
  | [] => parsed
  | h1Node :: rest =>
      let h1Text := trim (textContent (here h1Node)) in
      allSections rest
        (if includes H1_WHITELIST h1Text
         then obj_set h1Text
                (sectionTables (sectionSiblings h1Node (head rest)) []) parsed
         else parsed)
  end.

(** A bound on the iterations of the [while] loops that suffices for the
    document: no top-level heading has more following siblings. *)
Definition enoughFuel (bound : nat) (root : node) : Prop :=
  Forall (fun h1Node => length (following h1Node) ≤ bound) (h1Elements root).

(** [h1Node], at index [i] of [h1s], is the last heading of [h1s] whose
    trimmed text is the whitelisted [k]. *)
Definition lastWithText (h1s : list ref) (i : nat) (h1Node : ref)
    (k : jsstring) : Prop :=
  h1s !! i = Some h1Node
  ∧ trimmedText h1Node = k
  ∧ includes H1_WHITELIST k = true
  ∧ ∀ j h, i < j → h1s !! j = Some h → trimmedText h ≠ k.

(** [t] is the table found after [start]: a [table] element among the
    next siblings of [start] that no heading ([h1] or [h2] element) and no
    other table precedes there. *)
Definition firstTableAfter (start t : ref) : Prop :=
  ∃ k, nextSiblings start !! k = Some t
       ∧ tagNamed "table" (here t) = true
       ∧ ∀ j s, j < k → nextSiblings start !! j = Some s →
                stopsScan s = false.

(** In the section of the heading [h1Node], at index [i] of [h1s] (the
    siblings after it, up to the next collected heading), a sub-level
    heading with the trimmed text [k2] passes the whitelist check and is
    followed by the table [t] before the next heading. *)
Definition tableFoundIn (h1s : list ref) (i : nat) (h1Node : ref)
    (k2 : jsstring) (t : ref) : Prop :=
  ∃ sib,
    sib ∈ sectionSiblings h1Node (h1s !! (i + 1))
    ∧ acceptedH2 sib = true
    ∧ trimmedText sib = k2
    ∧ firstTableAfter sib t.

(** The same in the section of some whitelisted heading with the trimmed
    text [k1], and in the section of the last of them. *)
Definition tableFoundUnder (root : node) (k1 k2 : jsstring) (t : ref)
    : Prop :=
  ∃ i h1Node,
    h1Elements root !! i = Some h1Node
    ∧ trimmedText h1Node = k1
    ∧ includes H1_WHITELIST k1 = true
    ∧ tableFoundIn (h1Elements root) i h1Node k2 t.

Definition tableFound (root : node) (k1 k2 : jsstring) (t : ref) : Prop :=
  ∃ i h1Node,
    lastWithText (h1Elements root) i h1Node k1
    ∧ tableFoundIn (h1Elements root) i h1Node k2 t.

(** The key [k2] is present under the key [k1] of [parsed]. *)
Definition subKeyPresent (parsed : ParsedData) (k1 k2 : jsstring) : Prop :=
  ∃ sub, obj_get k1 parsed = Some sub ∧ is_Some (obj_get k2 sub).

(** [findAll] over consecutive siblings: the matches at and below the
    nodes of [l], the first of which has index [i] under the parent at
    [p]. *)
Fixpoint findAll_forest (test : node -> bool) (p : list nat) (i : nat)
    (l : list node) : list ref :=
  match l with
  | [] => []
  | n :: rest =>
      findAll_node test p i n rest ++ findAll_forest test p (S i) rest
  end.

(** The number of elements at or below the nodes of [l] that pass
    [test]. *)
Definition matches (test : node -> bool) (l : list node) : nat :=
  length (findAll_forest test [] 0 l).

(** Two references to equal nodes, possibly at different places. *)
Definition sameHere (a b : ref) : Prop := here a = here b.

(** ** Sample documents

    The trees [parseDocument] builds for small inputs (written here
    without white space between the tags); they are the concrete inputs of
    the examples below. *)
Definition el (tag : string) (cs : list node) : node := Element (lit tag) cs.
Definition tx (s : string) : node := Text (lit s).

(** [<table><tr><th>Header1</th><th>Header2</th></tr>
           <tr><td>Data1</td><td>Data2</td></tr></table>] *)
Definition sampleTable : node :=
  el "table"
    [ el "tr" [ el "th" [tx "Header1"]; el "th" [tx "Header2"] ];
      el "tr" [ el "td" [tx "Data1"]; el "td" [tx "Data2"] ] ].

(** The record of the one data row of the sample table. *)
Definition sampleRecord : record :=
  [ (lit "Header1", lit "Data1"); (lit "Header2", lit "Data2") ].

(** An [h2] followed by a paragraph, a table, a second table and a
    heading:
    [<h2>PromoCodes</h2><p>x</p><table>...</table><table></table><h1>y</h1>],
    as the children of the document. *)
Definition sampleH2 : ref :=
  {| up := [0]; index := 0; here := el "h2" [tx "PromoCodes"];
     following := [ el "p" [tx "x"]; sampleTable; el "table" [];
                    el "h1" [tx "y"] ] |}.

(** The sample table as the third child of the document of scenario A,
    and its two rows. *)
Definition sampleTableRef : ref :=
  {| up := [0]; index := 2; here := sampleTable; following := [] |}.

Definition sampleHeaderRow : ref :=
  {| up := [2; 0]; index := 0;
     here := el "tr" [ el "th" [tx "Header1"]; el "th" [tx "Header2"] ];
     following := [ el "tr" [ el "td" [tx "Data1"]; el "td" [tx "Data2"] ] ] |}.

Definition sampleDataRow : ref :=
  {| up := [2; 0]; index := 1;
     here := el "tr" [ el "td" [tx "Data1"]; el "td" [tx "Data2"] ];
     following := [] |}.

(** [<table><tr><th>A</th><th>A</th></tr><tr><td>1</td><td>2</td></tr></table>],
    a table with two columns of the same header text, as the third child
    of a document like that of scenario A; and its two rows. *)
Definition duplicateHeaderTable : ref :=
  {| up := [0]; index := 2;
     here := el "table"
               [ el "tr" [ el "th" [tx "A"]; el "th" [tx "A"] ];
                 el "tr" [ el "td" [tx "1"]; el "td" [tx "2"] ] ];
     following := [] |}.

Definition duplicateHeaderHead : ref :=
  {| up := [2; 0]; index := 0;
     here := el "tr" [ el "th" [tx "A"]; el "th" [tx "A"] ];
     following := [ el "tr" [ el "td" [tx "1"]; el "td" [tx "2"] ] ] |}.

Definition duplicateHeaderRow : ref :=
  {| up := [2; 0]; index := 1;
     here := el "tr" [ el "td" [tx "1"]; el "td" [tx "2"] ];
     following := [] |}.

(** [<h1>Call of Duty: Vanguard</h1><h2>PromoCodes</h2>
     <table><tr></tr><tr><td>x</td></tr><tr></tr></table>]:
    a table with no header cell and two rows without data cells. *)
Definition headerlessDocument : node :=
  Document
    [ el "h1" [tx "Call of Duty: Vanguard"];
      el "h2" [tx "PromoCodes"];
      el "table" [ el "tr" []; el "tr" [ el "td" [tx "x"] ]; el "tr" [] ] ].

Definition headerlessTable : ref :=
  {| up := [0]; index := 2;
     here := el "table" [ el "tr" []; el "tr" [ el "td" [tx "x"] ]; el "tr" [] ];
     following := [] |}.

(** [<h1>Call of Duty: Vanguard</h1><h2>PromoCodes</h2><table></table>]:
    a table without rows. *)
Definition rowlessDocument : node :=
  Document
    [ el "h1" [tx "Call of Duty: Vanguard"];
      el "h2" [tx "PromoCodes"];
      el "table" [] ].

(** Scenario A of the specification:
    [<h1>Call of Duty: Vanguard</h1><h2>PromoCodes</h2>] and the sample
    table. *)
Definition scenarioA : node :=
  Document
    [ el "h1" [tx "Call of Duty: Vanguard"];
      el "h2" [tx "PromoCodes"];
      sampleTable ].

(** Scenario B: the text of the sub-level heading is not whitelisted. *)
Definition scenarioB : node :=
  Document
    [ el "h1" [tx "Call of Duty: Vanguard"];
      el "h2" [tx "Patch notes"];
      sampleTable ].

(** Scenario C: a whitelisted sub-level heading with no table before the
    next heading. *)
Definition scenarioC : node :=
  Document
    [ el "h1" [tx "Call of Duty: Vanguard"];
      el "h2" [tx "PromoCodes"];
      el "p" [tx "no data"];
      el "h2" [tx "Sessions Data (reverse chronological)"];
      sampleTable ].

(** Scenario D: the text of the top-level heading is not whitelisted. *)
Definition scenarioD : node :=
  Document
    [ el "h1" [tx "Patch notes"];
      el "h2" [tx "PromoCodes"];
      sampleTable ].

(** Scenario E: two whitelisted top-level headings in sequence, each with
    one whitelisted sub-level heading and a one-row table; and the
    references to its two headings. *)
Definition scenarioE : node :=
  Document
    [ el "h1" [tx "Call of Duty: Vanguard"];
      el "h2" [tx "PromoCodes"];
      sampleTable;
      el "h1" [tx "Call of Duty: Warzone 2.0"];
      el "h2" [tx "Sessions Data (reverse chronological)"];
      sampleTable ].



(** Scenario E with the same text on both top-level headings. *)
Definition duplicateH1Document : node :=
  Document
    [ el "h1" [tx "Call of Duty: Vanguard"];
      el "h2" [tx "PromoCodes"];
      sampleTable;
      el "h1" [tx "Call of Duty: Vanguard"];
      el "h2" [tx "Sessions Data (reverse chronological)"];
      sampleTable ].

(** The second top-level heading of [duplicateH1Document]. *)
Definition duplicateH1_last : ref :=
  {| up := [0]; index := 3; here := el "h1" [tx "Call of Duty: Vanguard"];
     following :=
       [ el "h2" [tx "Sessions Data (reverse chronological)"];
         sampleTable ] |}.

(** ** Vocabulary for the further properties *)

(** The column keys of a table: the trimmed texts of its header cells. *)
Definition headersOf (tableNode : ref) : list jsstring :=
  map trimmedText (findAll (tagNamed "th") tableNode).

(** The record the [forEach] of [parseSingleTable] builds for a row. *)
Definition rowRecord (tableNode row : ref) : record :=
  forEach_td (headersOf tableNode) (findAll (tagNamed "td") row) 0 [].

(** A list without the later occurrences of its elements. *)
Fixpoint firstOccurrences (l : list jsstring) : list jsstring :=
  match l with
  | [] => []
  | x :: l' => x :: filter (fun y => y ≠ x) (firstOccurrences l')
  end.

(** [<h1>Call of Duty: Vanguard</h1><h2>PromoCodes</h2>] with the sample
    table, [<h2>PromoCodes</h2>] with a second table and a third
    [<h2>PromoCodes</h2>] without a table. *)
Definition secondTable : node :=
  el "table"
    [ el "tr" [ el "th" [tx "Code"] ];
      el "tr" [ el "td" [tx "XYZ"] ] ].

Definition duplicateH2Document : node :=
  Document
    [ el "h1" [tx "Call of Duty: Vanguard"];
      el "h2" [tx "PromoCodes"];
      sampleTable;
      el "h2" [tx "PromoCodes"];
      secondTable;
      el "h2" [tx "PromoCodes"] ].




(** Three top-level headings, the third with the text of the first. *)
Definition interleavedDocument : node :=
  Document
    [ el "h1" [tx "Call of Duty: Vanguard"];
      el "h1" [tx "Call of Duty: Warzone 2.0"];
      el "h1" [tx "Call of Duty: Vanguard"] ].

(** Scenario E with a second top-level heading that is not whitelisted. *)
Definition skippedH1Document : node :=
  Document
    [ el "h1" [tx "Call of Duty: Vanguard"];
      el "h2" [tx "PromoCodes"];
      sampleTable;
      el "h1" [tx "Patch notes"];
      el "h2" [tx "Sessions Data (reverse chronological)"];
      sampleTable ].

Definition skippedH1_h1 : ref :=
  {| up := [0]; index := 0; here := el "h1" [tx "Call of Duty: Vanguard"];
     following :=
       [ el "h2" [tx "PromoCodes"];
         sampleTable;
         el "h1" [tx "Patch notes"];
         el "h2" [tx "Sessions Data (reverse chronological)"];
         sampleTable ] |}.

Definition skippedH1_nextH1 : ref :=
  {| up := [0]; index := 3; here := el "h1" [tx "Patch notes"];
     following :=
       [ el "h2" [tx "Sessions Data (reverse chronological)"];
         sampleTable ] |}.

(** [<h1>Call of Duty: Vanguard</h1>
     <div><h1>Call of Duty: Warzone 2.0</h1></div>
     <h2>PromoCodes</h2>] and the sample table: the second top-level
    heading is not a sibling of the first. *)
Definition nestedH1Document : node :=
  Document
    [ el "h1" [tx "Call of Duty: Vanguard"];
      el "div" [ el "h1" [tx "Call of Duty: Warzone 2.0"] ];
      el "h2" [tx "PromoCodes"];
      sampleTable ].

(** A document whose headings carry white space and inner markup:
    the [h1] holds a line break and a space, the text inside a [b]
    element, a space and a line break; the [h2] holds spaces around its
    text. *)
Definition paddedH1 : ref :=
  {| up := [0]; index := 0;
     here := el "h1" [ Text [10; 32]%N;
                       el "b" [tx "Call of Duty: Vanguard"];
                       Text [32; 10]%N ];
     following := [ el "h2" [tx "  PromoCodes "]; sampleTable ] |}.

Definition paddedDocument : node :=
  Document (here paddedH1 :: following paddedH1).

(** ** The key mappings (the constants file beside whitelist.ts) *)

Definition H1_KEY_MAPPING : obj jsstring :=
  [ (lit "Call of Duty: Black Ops 6", lit "BO6");
    (lit "Call of Duty: Black Ops Cold War", lit "BOCW");
    (lit "Activision Account Shared", lit "AAS");
    (lit "Call of Duty: Modern Warfare", lit "MW");
    (lit "Call of Duty: Modern Warfare II", lit "MW2");
    (lit "Call of Duty: Modern Warfare III", lit "MW3");
    (lit "Call of Duty: Vanguard", lit "VG");
    (lit "Call of Duty: Warzone 2.0", lit "WZ2");
    (lit "Call of Duty: Warzone Mobile", lit "WZM") ].

Definition H2_KEY_MAPPING : obj jsstring :=
  [ (lit "Campaign Checkpoint Data (reverse chronological)", lit "CCD");
    (lit "Multiplayer Match Data (reverse chronological)", lit "MPD");
    (lit "PromoCodes", lit "PC");
    (lit "Zombies Match Data (reverse chronological)", lit "ZMD");
    (lit "Campaign Data (reverse chronological)", lit "CD");
    (lit "Sessions Data (reverse chronological)", lit "SD");
    (lit "Zombies Data (reverse chronological)", lit "ZD");
    (lit "Gamertag Data (reverse chronological)", lit "GD");
    (lit "CoOp Match Data (reverse chronological)", lit "CMD");
    (lit "Mobile Hardware Data (reverse chronological)", lit "MHD") ].

(** A string of white space only. *)
Definition allWhiteSpace (s : jsstring) : Prop :=
  Forall (fun c => isWhiteSpace c = true) s.

(** ** JSON.stringify

    [JSON.stringify] on the values the Worker serialises: strings, arrays
    and plain objects. *)
#[warnings="-register-all"]
Inductive json : Type :=
  | JString (s : jsstring)
  | JArray (elements : list json)
  | JObject (properties : list (jsstring * json)).

Definition hexDigit (d : N) : N :=
  if (d <? 10)%N then (0x30 + d)%N else (0x61 + (d - 10))%N.

(** [\uXXXX] with lower-case hexadecimal digits *)
Definition unicodeEscape (c : N) : jsstring :=
  [ 0x5C; 0x75; hexDigit ((c / 4096) mod 16); hexDigit ((c / 256) mod 16);
    hexDigit ((c / 16) mod 16); hexDigit (c mod 16) ]%N.

Definition isLeadingSurrogate (c : N) : bool :=
  ((0xD800 <=? c) && (c <=? 0xDBFF))%N.

Definition isTrailingSurrogate (c : N) : bool :=
  ((0xDC00 <=? c) && (c <=? 0xDFFF))%N.

(** A code unit outside a surrogate pair, as QuoteJSONString writes it:
    the two-character escapes, [\uXXXX] for the other control characters
    and for lone surrogates, the code unit itself otherwise. *)
Definition quoteUnit (c : N) : jsstring :=
  if (c =? 0x08)%N then lit "\b"
  else if (c =? 0x09)%N then lit "\t"
  else if (c =? 0x0A)%N then lit "\n"
  else if (c =? 0x0C)%N then lit "\f"
  else if (c =? 0x0D)%N then lit "\r"
  else if (c =? 0x22)%N then [0x5C; 0x22]%N
  else if (c =? 0x5C)%N then [0x5C; 0x5C]%N
  else if (c <? 0x20)%N || isLeadingSurrogate c || isTrailingSurrogate c
       then unicodeEscape c
  else [c].

Fixpoint quoteUnits (s : jsstring) : jsstring :=
  match s with
  | [] => []
  | c :: s' =>
      match s' with
      | d :: s'' =>
          if isLeadingSurrogate c && isTrailingSurrogate d
          then c :: d :: quoteUnits s''
          else quoteUnit c ++ quoteUnits s'
      | [] => quoteUnit c
      end
  end.

Definition QuoteJSONString (s : jsstring) : jsstring :=
  [0x22%N] ++ quoteUnits s ++ [0x22%N].

Definition joinWith (separator : jsstring) (parts : list jsstring) : jsstring :=
  match parts with
  | [] => []
  | part :: rest => part ++ concat (map (fun q => separator ++ q) rest)
  end.

(** The closing steps of SerializeJSONObject and SerializeJSONArray *)
Definition wrapJSON (opening closing gap indent stepback : jsstring)
    (partial : list jsstring) : jsstring :=
  match partial with
  | [] => opening ++ closing
  | _ =>
      match gap with
      | [] => opening ++ joinWith (lit ",") partial ++ closing
      | _ =>
          opening ++ [0x0A%N] ++ indent
          ++ joinWith (lit "," ++ [0x0A%N] ++ indent) partial
          ++ [0x0A%N] ++ stepback ++ closing
      end
  end.

(** SerializeJSONProperty: [gap] is the indentation unit, [indent] the
    current indentation.  The properties of an object are written in the
    order in which they are enumerated. *)
Fixpoint SerializeJSONProperty (gap indent : jsstring) (value : json)
    : jsstring :=
  match value with
  | JString s => QuoteJSONString s
  | JArray elements =>
      let stepback := indent in
      let indent := indent ++ gap in
      wrapJSON (lit "[") (lit "]") gap indent stepback
        (map (SerializeJSONProperty gap indent) elements)
  | JObject properties =>
      let stepback := indent in
      let indent := indent ++ gap in
      let serialized : obj jsstring :=
        map (fun kv => (fst kv, SerializeJSONProperty gap indent (snd kv)))
            properties in
      wrapJSON (lit "{") (lit "}") gap indent stepback
        (map (fun kv =>
                QuoteJSONString (fst kv) ++ lit ":"
                ++ match gap with [] => [] | _ => lit " " end
                ++ snd kv)
             (entries serialized))
  end.

(** [JSON.stringify(value)] and [JSON.stringify(value, null, 2)] *)
Definition JSON_stringify (value : json) : jsstring :=
  SerializeJSONProperty [] [] value.

Definition JSON_stringify_2 (value : json) : jsstring :=
  SerializeJSONProperty (lit "  ") [] value.

(** The [ParsedData] and the [{ url }] objects as JSON values *)
Definition jsonOfRecord (r : record) : json :=
  JObject (map (fun kv => (fst kv, JString (snd kv))) r).

Definition jsonOfParsedData (parsed : ParsedData) : json :=
  JObject
    (map (fun h1 =>
            (fst h1,
             JObject
               (map (fun h2 => (fst h2, JArray (map jsonOfRecord (snd h2))))
                    (snd h1))))
         parsed).

(** [`${n}`] for a non-negative integer below 10^21: its decimal digits *)
Fixpoint digitsOfUint (d : Decimal.uint) : jsstring :=
  match d with
  | Decimal.Nil => []
  | Decimal.D0 d' => 0x30%N :: digitsOfUint d'
  | Decimal.D1 d' => 0x31%N :: digitsOfUint d'
  | Decimal.D2 d' => 0x32%N :: digitsOfUint d'
  | Decimal.D3 d' => 0x33%N :: digitsOfUint d'
  | Decimal.D4 d' => 0x34%N :: digitsOfUint d'
  | Decimal.D5 d' => 0x35%N :: digitsOfUint d'
  | Decimal.D6 d' => 0x36%N :: digitsOfUint d'
  | Decimal.D7 d' => 0x37%N :: digitsOfUint d'
  | Decimal.D8 d' => 0x38%N :: digitsOfUint d'
  | Decimal.D9 d' => 0x39%N :: digitsOfUint d'
  end.

Definition numberToString (n : N) : jsstring := digitsOfUint (N.to_uint n).

(** ** The Worker: index.ts and upload.ts *)

(** What the handler reads of the request:
    [request.headers.get('x-api-key')] and, of [new URL(request.url)],
    [searchParams.get('file')] and [searchParams.get('userId')]; [null] is
    [None]. *)
Record Request : Type := {
  header_x_api_key : option jsstring;
  param_file : option jsstring;
  param_userId : option jsstring
}.

(** [new Response(body, { status, headers })] *)
Record Response : Type := {
  status : nat;
  body : jsstring;
  headers : list (jsstring * jsstring)
}.

(** The outcome of [await fetch(fileUrl)]: the promise rejects with an
    error, or resolves to a response with its [ok], its [statusText] and
    the outcome of [await response.text()] (the text, or the message of
    the error it rejects with).  An error is represented by the text that
    [error.message] gives in the template of the [catch] block. *)
Inductive fetched : Type :=
  | FetchRejected (message : jsstring)
  | FetchResponse (ok : bool) (statusText : jsstring)
      (text : jsstring + jsstring).

(** What the handler depends on beside the request: the bindings
    [env.API_KEY] ([None] when it is not configured) and [env.MY_BUCKET]
    (the outcome of [put]: [None] when it resolves, the message of the
    error when it rejects), the global [fetch] and the clock
    [Date.now()]. *)
Record World : Type := {
  env_API_KEY : option jsstring;
  env_MY_BUCKET_put : jsstring -> jsstring -> option jsstring;
  global_fetch : jsstring -> fetched;
  Date_now : N
}.

(** The calls the handler makes to the outside, in their order. *)
Inductive call : Type :=
  | CallFetch (url : jsstring)
  | CallPut (key value : jsstring).

(** [!value] for a string or [null] *)
Definition falsy (value : option jsstring) : bool :=
  match value with
  | None | Some [] => true
  | Some (_ :: _) => false
  end.

(** [apiKey !== env.API_KEY] *)
Definition strictNotEqual (a b : option jsstring) : bool :=
  match a, b with
  | Some x, Some y => negb (bool_decide (x = y))
  | _, _ => true
  end.

(** [`${Date.now()}-${userId}-data`] *)
Definition objectKeyOf (now : N) (userId : jsstring) : jsstring :=
  numberToString now ++ lit "-" ++ userId ++ lit "-data".

(** [uploadParsedFile({ jsonResult, userId, env })]: the calls it makes,
    and the [body] it returns or the message of the error it throws. *)
Definition uploadParsedFile (w : World) (jsonResult : ParsedData)
    (userId : jsstring) : list call * (jsstring + jsstring) :=
  let jsonString := JSON_stringify_2 (jsonOfParsedData jsonResult) in
  let objectKey := objectKeyOf (Date_now w) userId in
  match env_MY_BUCKET_put w objectKey jsonString with
  | Some message => ([CallPut objectKey jsonString], inr message)
  | None =>
      let body :=
        JSON_stringify
          (JObject
             [ (lit "url",
                JString (lit "https://cdn.cod-stats.jconet.ltd/"
                         ++ objectKey)) ]) in
      ([CallPut objectKey jsonString], inl body)
  end.

(** [new Response(`Error: ${error.message}`, { status: 500 })] *)
Definition errorResponse (message : jsstring) : Response :=
  {| status := 500; body := lit "Error: " ++ message; headers := [] |}.

Section Worker.
(** [parseDocument] as before, and the message of the [TypeError] the
    engine throws on reading a property of [undefined]. *)
Variable parseDocument : jsstring -> node.
Variable typeErrorMessage : jsstring.

(** The [try] block of the handler *)
Definition fetch_try (bound : nat) (w : World) (fileUrl userId : jsstring)
    : outcome (Response * list call) :=
  match global_fetch w fileUrl with
  | FetchRejected message => Done (errorResponse message, [CallFetch fileUrl])
  | FetchResponse ok statusText text =>
      if negb ok then
        Done (errorResponse (lit "Failed to fetch file: " ++ statusText),
              [CallFetch fileUrl])
      else
        match text with
        | inr message => Done (errorResponse message, [CallFetch fileUrl])
        | inl htmlContent =>
            match parseHtmlH1H2Tables parseDocument bound htmlContent with
            | OutOfFuel => OutOfFuel
            | TypeError =>
                Done (errorResponse typeErrorMessage, [CallFetch fileUrl])
            | Done jsonResult =>
                let (calls, uploaded) := uploadParsedFile w jsonResult userId in
                match uploaded with
                | inl body =>
                    Done ({| status := 200; body := body;
                             headers := [ (lit "Content-Type",
                                           lit "application/json") ] |},
                          CallFetch fileUrl :: calls)
                | inr message =>
                    Done (errorResponse message, CallFetch fileUrl :: calls)
                end
            end
        end
  end.

(** The [fetch] handler of the Worker: the response and the calls made. *)
Definition fetch_handler (bound : nat) (w : World) (request : Request)
    : outcome (Response * list call) :=
  let apiKey := header_x_api_key request in
  if falsy apiKey || strictNotEqual apiKey (env_API_KEY w) then
    Done ({| status := 401;
             body := lit "Unauthorized: Invalid or missing Api Key (x-api-key)";
             headers := [] |}, [])
  else
    let fileUrl := param_file request in
    let userId := param_userId request in
    if falsy fileUrl then
      Done ({| status := 400; body := lit "Missing file parameter";
               headers := [] |}, [])
    else if falsy userId then
      Done ({| status := 400; body := lit "Missing userId parameter";
               headers := [] |}, [])
    else
      fetch_try bound w (default [] fileUrl) (default [] userId).
End Worker.

(** The request carries the configured key. *)
Definition authorized (w : World) (request : Request) : Prop :=
  ∃ key, key ≠ [] ∧ header_x_api_key request = Some key
         ∧ env_API_KEY w = Some key.

(** A world and a request for the examples: the key is [secret], the file
    at [https://files.example/report.html] is the document of scenario A,
    the clock shows 1700000000000 and the bucket accepts every object. *)
Definition sampleWorld : World :=
  {| env_API_KEY := Some (lit "secret");
     env_MY_BUCKET_put := fun _ _ => None;
     global_fetch := fun url =>
       if bool_decide (url = lit "https://files.example/report.html")
       then FetchResponse true (lit "OK") (inl (lit "<h1>...</h1>"))
       else FetchResponse false (lit "Not Found") (inl []);
     Date_now := 1700000000000%N |}.

Definition sampleRequest : Request :=
  {| header_x_api_key := Some (lit "secret");
     param_file := Some (lit "https://files.example/report.html");
     param_userId := Some (lit "u42") |}.

(** The same request with an empty [userId], and the same world with a
    bucket that refuses every object. *)
Definition sampleRequestWithoutUser : Request :=
  {| header_x_api_key := Some (lit "secret");
     param_file := Some (lit "https://files.example/report.html");
     param_userId := Some [] |}.

Definition sampleWorldFullBucket : World :=
  {| env_API_KEY := Some (lit "secret");
     env_MY_BUCKET_put := fun _ _ => Some (lit "put failed");
     global_fetch := global_fetch sampleWorld;
     Date_now := 1700000000000%N |}.

(** * Properties *)

#[local] Arguments lit : simpl never.
#[local] Arguments includes : simpl never.
#[local] Arguments tagNamed : simpl never.
#[local] Arguments trim : simpl never.
#[local] Arguments textContent : simpl never.
#[local] Arguments parseSingleTable : simpl never.
#[local] Arguments findNextTableSibling : simpl never.
#[local] Arguments H1_WHITELIST : simpl never.
#[local] Arguments H2_WHITELIST : simpl never.

(** A closed decidable fact about a sample document is settled by
    evaluating its decision procedure. *)
Ltac by_evaluation P := apply (bool_decide_unpack P); vm_compute; exact I.

(** ** Objects *)

Section Objects.
Context {V : Type}.
Implicit Types (o : obj V) (k : jsstring) (v : V).

Lemma obj_get_set_eq k v o : obj_get k (obj_set k v o) = Some v.
Proof.
  induction o as [|[k' v'] o IH]; simpl.
  - by rewrite bool_decide_eq_true_2.
  - destruct (bool_decide (k' = k)) eqn:E; simpl.
    + by rewrite bool_decide_eq_true_2.
    + by rewrite E.
Qed.

Lemma obj_get_set_ne k k' v o :
  k ≠ k' → obj_get k' (obj_set k v o) = obj_get k' o.
Proof.
  intros Hne. induction o as [|[k0 v0] o IH]; simpl.
  - by rewrite bool_decide_eq_false_2.
  - destruct (bool_decide (k0 = k)) eqn:E; simpl.
    + apply bool_decide_eq_true_1 in E. subst k0.
      by rewrite !bool_decide_eq_false_2.
    + by rewrite IH.
Qed.

Lemma obj_set_set k v w o : obj_set k v (obj_set k w o) = obj_set k v o.
Proof.
  induction o as [|[k0 v0] o IH]; simpl.
  - by rewrite bool_decide_eq_true_2.
  - destruct (bool_decide (k0 = k)) eqn:E; simpl.
    + by rewrite bool_decide_eq_true_2.
    + by rewrite E, IH.
Qed.

Lemma obj_set_id k v o : obj_get k o = Some v → obj_set k v o = o.
Proof.
  induction o as [|[k0 v0] o IH]; simpl; [done|].
  case_bool_decide; [by intros [= ->]; subst | intros; f_equal; auto].
Qed.

Lemma obj_get_None k o : obj_get k o = None ↔ k ∉ map fst o.
Proof.
  induction o as [|[k0 v0] o IH]; simpl.
  - split; [intros _; apply not_elem_of_nil | done].
  - rewrite not_elem_of_cons. case_bool_decide as E.
    + split; [done | intros [? _]; by subst].
    + rewrite IH. split; [by intros ?; split; [congruence|] | by intros [_ ?]].
Qed.

Lemma obj_get_Some_elem k v o : obj_get k o = Some v → (k, v) ∈ o.
Proof.
  induction o as [|[k0 v0] o IH]; simpl; [done|].
  case_bool_decide.
  - intros [= <-]. subst. apply list_elem_of_here.
  - intros. apply list_elem_of_further. auto.
Qed.

Lemma obj_elem_get k v o : (k, v) ∈ o → is_Some (obj_get k o).
Proof.
  induction o as [|[k0 v0] o IH]; simpl.
  - intros H. by apply elem_of_nil in H.
  - intros H. case_bool_decide; [eauto|].
    apply elem_of_cons in H as [[= -> ->]|H]; [done | auto].
Qed.

Lemma obj_keys_set k v o :
  map fst (obj_set k v o)
  = match obj_get k o with
    | Some _ => map fst o
    | None => map fst o ++ [k]
    end.
Proof.
  induction o as [|[k0 v0] o IH]; simpl; [done|].
  case_bool_decide; simpl; [by subst|].
  rewrite IH. by destruct (obj_get k o).
Qed.

Lemma obj_keys_NoDup_set k v o :
  NoDup (map fst o) → NoDup (map fst (obj_set k v o)).
Proof.
  intros Hnd. rewrite obj_keys_set.
  destruct (obj_get k o) eqn:E; [done|].
  apply obj_get_None in E.
  apply NoDup_app. split_and!; [done | | apply NoDup_singleton].
  intros x Hx Hx'. apply list_elem_of_singleton in Hx'. by subst.
Qed.

Lemma obj_set_elem k v o k' v' :
  (k', v') ∈ obj_set k v o → (k' = k ∧ v' = v) ∨ (k', v') ∈ o.
Proof.
  induction o as [|[k0 v0] o IH]; simpl.
  - intros H. apply list_elem_of_singleton in H as [= -> ->]. by left.
  - case_bool_decide.
    + intros H'. apply elem_of_cons in H' as [[= -> ->]|H']; [by left|].
      right. by apply list_elem_of_further.
    + intros H'. apply elem_of_cons in H' as [[= -> ->]|H'].
      * right. apply list_elem_of_here.
      * destruct (IH H') as [?|?]; [by left|].
        right. by apply list_elem_of_further.
Qed.
End Objects.

(** ** Sibling chains *)

Lemma nextSiblings_unfold r :
  nextSiblings r
  = match nextSibling r with
    | None => []
    | Some d => d :: nextSiblings d
    end.
Proof.
  unfold nextSiblings, nextSibling. by destruct (following r).
Qed.

Lemma nextSibling_head r : nextSibling r = head (nextSiblings r).
Proof. unfold nextSiblings, nextSibling. by destruct (following r). Qed.

Lemma siblingsAt_length p i l : length (siblingsAt p i l) = length l.
Proof. revert i. induction l; intros; simpl; auto. Qed.


Lemma siblingsAt_lookup p i l k r :
  siblingsAt p i l !! k = Some r →
  up r = p ∧ index r = i + k ∧ l !! k = Some (here r)
  ∧ following r = drop (S k) l.
Proof.
  revert i k. induction l as [|n l IH]; intros i k; simpl; [done|].
  destruct k as [|k]; simpl.
  - intros [= <-]. simpl. split_and!; try done; lia.
  - intros H. apply IH in H as (? & ? & ? & ?). split_and!; try done; lia.
Qed.

(** [nextSibling] moves strictly forward along a finite chain. *)
Lemma nextSibling_forward r r' :
  nextSibling r = Some r' →
  up r' = up r ∧ index r' = S (index r)
  ∧ S (length (following r')) = length (following r).
Proof.
  unfold nextSibling. destruct (following r) eqn:E; [done|].
  intros [= <-]. by simpl.
Qed.

(** ** findNextTableSibling *)

Lemma findNextTableSibling_loop_cases fuel p i l :
  let res := findNextTableSibling_loop fuel (head (siblingsAt p i l)) in
  res = Done (firstTable (siblingsAt p i l))
  ∨ (res = OutOfFuel ∧ fuel < length l).
Proof.
  revert fuel i. induction l as [|n l IH]; intros fuel i; simpl.
  { left. by destruct fuel. }
  destruct fuel as [|fuel]; simpl; [right; split; [done | lia]|].
  destruct (tagNamed "h2" n); simpl; [by left|].
  destruct (tagNamed "h1" n); simpl; [by left|].
  destruct (tagNamed "table" n); simpl; [by left|].
  pose proof (nextSibling_head {| up := p; index := i; here := n;
                                 following := l |}) as Hnext.
  unfold nextSiblings in Hnext. simpl in Hnext.
  rewrite Hnext.
  destruct (IH fuel (S i)) as [->|[-> ?]]; [by left | right; split; [done|lia]].
Qed.

Lemma findNextTableSibling_cases fuel r :
  findNextTableSibling fuel r = Done (firstTable (nextSiblings r))
  ∨ (findNextTableSibling fuel r = OutOfFuel ∧ fuel < length (following r)).
Proof.
  unfold findNextTableSibling. rewrite nextSibling_head.
  apply findNextTableSibling_loop_cases.
Qed.

Lemma findNextTableSibling_firstTable fuel r :
  length (following r) ≤ fuel →
  findNextTableSibling fuel r = Done (firstTable (nextSiblings r)).
Proof.
  intros Hf. destruct (findNextTableSibling_cases fuel r) as [?|[_ ?]];
    [done | lia].
Qed.


Lemma firstTable_Some l t :
  firstTable l = Some t ↔
  ∃ k, l !! k = Some t ∧ tagNamed "table" (here t) = true
       ∧ ∀ j s, j < k → l !! j = Some s → stopsScan s = false.
Proof.
  unfold stopsScan. induction l as [|nx l IH]; simpl.
  - split; [done | by intros (k & ? & _)].
  - destruct (tagNamed "h2" (here nx)) eqn:E2; simpl.
    { split; [done|]. intros ([|k] & Hk & Ht & Hb).
      - simpl in Hk. injection Hk as ->.
        unfold tagNamed in E2, Ht.
        apply andb_true_iff in E2 as [_ E2], Ht as [_ Ht].
        apply bool_decide_eq_true_1 in E2, Ht. by rewrite E2 in Ht.
      - specialize (Hb 0 nx ltac:(lia) eq_refl). by rewrite E2 in Hb. }
    destruct (tagNamed "h1" (here nx)) eqn:E1; simpl.
    { split; [done|]. intros ([|k] & Hk & Ht & Hb).
      - simpl in Hk. injection Hk as ->.
        unfold tagNamed in E1, Ht.
        apply andb_true_iff in E1 as [_ E1], Ht as [_ Ht].
        apply bool_decide_eq_true_1 in E1, Ht. by rewrite E1 in Ht.
      - specialize (Hb 0 nx ltac:(lia) eq_refl). by rewrite E2, E1 in Hb. }
    destruct (tagNamed "table" (here nx)) eqn:Et.
    { split.
      - intros [= <-]. exists 0. split_and!; [done..|]. intros; lia.
      - intros ([|k] & Hk & Ht & Hb); [by simpl in Hk; congruence|].
        specialize (Hb 0 nx ltac:(lia) eq_refl).
        by rewrite E2, E1, Et in Hb. }
    rewrite IH. split.
    + intros (k & Hk & Ht & Hb). exists (S k). split_and!; [done..|].
      intros [|j] s Hj Hs; simpl in Hs.
      * injection Hs as <-. by rewrite E2, E1, Et.
      * apply (Hb j); [lia | done].
    + intros ([|k] & Hk & Ht & Hb); simpl in Hk.
      * injection Hk as ->. by rewrite Ht in Et.
      * exists k. split_and!; [done..|].
        intros j s Hj Hs. apply (Hb (S j)); [lia | done].
Qed.

Lemma firstTable_None_heading l k s :
  l !! k = Some s →
  tagNamed "h2" (here s) || tagNamed "h1" (here s) = true →
  (∀ j u, j < k → l !! j = Some u → tagNamed "table" (here u) = false) →
  firstTable l = None.
Proof.
  revert k. induction l as [|nx l IH]; intros k Hk Hs Hb; simpl; [done|].
  destruct (tagNamed "h2" (here nx) || tagNamed "h1" (here nx)) eqn:E; [done|].
  destruct k as [|k]; simpl in Hk.
  - injection Hk as ->. by rewrite Hs in E.
  - rewrite (Hb 0 nx ltac:(lia) eq_refl).
    apply (IH k); [done..|]. intros j u Hj Hu. apply (Hb (S j)); [lia|done].
Qed.

Lemma firstTable_None_no_table l :
  (∀ s, s ∈ l → tagNamed "table" (here s) = false) → firstTable l = None.
Proof.
  induction l as [|nx l IH]; intros Hb; simpl; [done|].
  destruct (_ || _); [done|].
  rewrite (Hb nx) by apply list_elem_of_here.
  apply IH. intros s Hs. apply Hb. by apply list_elem_of_further.
Qed.

(** ** The section loop *)

Lemma siblings_loop_cases bound fuel h1Text nextH1Node p i l parsed sub :
  obj_get h1Text parsed = Some sub →
  let res := parseHtmlH1H2Tables_siblings bound fuel h1Text nextH1Node
               (head (siblingsAt p i l)) parsed in
  res = Done (obj_set h1Text
               (sectionTables (untilBoundary nextH1Node (siblingsAt p i l))
                  sub)
               parsed)
  ∨ (res = OutOfFuel ∧ (fuel < length l ∨ bound < length l)).
Proof.
  revert fuel i parsed sub.
  induction l as [|n l IH]; intros fuel i parsed sub Hsub; simpl.
  { left. destruct fuel; simpl; by rewrite obj_set_id. }
  destruct (notBoundary _ nextH1Node) eqn:Hnb.
  2:{ left. destruct fuel; simpl; rewrite Hnb; by rewrite obj_set_id. }
  destruct fuel as [|fuel]; simpl; rewrite Hnb;
    [right; split; [done | lia]|].
  pose proof (nextSibling_head {| up := p; index := i; here := n;
                                 following := l |}) as Hnext.
  unfold nextSiblings in Hnext. simpl in Hnext.
  assert (Hrec : ∀ parsed' sub',
    obj_get h1Text parsed' = Some sub' →
    obj_set h1Text sub' parsed = parsed' →
    let res := parseHtmlH1H2Tables_siblings bound fuel h1Text nextH1Node
                 (head (siblingsAt p (S i) l)) parsed' in
    res = Done (obj_set h1Text
                 (sectionTables
                    (untilBoundary nextH1Node (siblingsAt p (S i) l)) sub')
                 parsed)
    ∨ (res = OutOfFuel ∧ (S fuel < S (length l) ∨ bound < S (length l)))).
  { intros parsed' sub' Hsub' Hp'. simpl.
    destruct (IH fuel (S i) parsed' sub' Hsub') as [->|[-> ?]].
    - left. by rewrite <- Hp', obj_set_set.
    - right. split; [done | lia]. }
  unfold sectionTables. simpl. unfold storeTable at 2, acceptedH2. simpl.
  rewrite Hnext.
  destruct (tagNamed "h2" n); simpl;
    [| by apply Hrec; [|apply obj_set_id]].
  destruct (includes H2_WHITELIST (trim (textContent n))); simpl;
    [| by apply Hrec; [|apply obj_set_id]].
  destruct (findNextTableSibling_cases bound
              {| up := p; index := i; here := n; following := l |})
    as [->|[-> ?]]; simpl in *; [| right; split; [done | lia]].
  unfold nextSiblings. simpl.
  destruct (firstTable (siblingsAt p (S i) l)) as [t|]; simpl;
    [| by apply Hrec; [|apply obj_set_id]].
  unfold assignTable. rewrite Hsub. simpl.
  apply Hrec; [apply obj_get_set_eq | done].
Qed.

Lemma h1_iteration_cases bound h1s i h1Node parsed :
  h1s !! i = Some h1Node →
  let res := parseHtmlH1H2Tables_h1 bound h1s i parsed in
  res = Done (let h1Text := trim (textContent (here h1Node)) in
              if includes H1_WHITELIST h1Text
              then obj_set h1Text
                     (sectionTables
                        (sectionSiblings h1Node (h1s !! (i + 1))) [])
                     parsed
              else parsed)
  ∨ (res = OutOfFuel ∧ bound < length (following h1Node)).
Proof.
  intros Hi. unfold parseHtmlH1H2Tables_h1. rewrite Hi. simpl.
  destruct (includes H1_WHITELIST _); simpl; [|by left].
  rewrite nextSibling_head. unfold nextSiblings.
  edestruct (siblings_loop_cases bound bound) as [->|[-> ?]];
    [apply obj_get_set_eq | |].
  - left. by rewrite obj_set_set.
  - right. split; [done | lia].
Qed.

Lemma for_loop_cases bound h1s i todo parsed :
  i + todo = length h1s →
  let res := parseHtmlH1H2Tables_for bound h1s i todo parsed in
  res = Done (allSections (drop i h1s) parsed)
  ∨ (res = OutOfFuel
     ∧ ¬ Forall (fun h1Node => length (following h1Node) ≤ bound) h1s).
Proof.
  revert i parsed.
  induction todo as [|todo IH]; intros i parsed Hlen; simpl.
  - left. by rewrite drop_ge by lia.
  - destruct (h1s !! i) as [h1Node|] eqn:Hi;
      [| apply lookup_ge_None in Hi; lia].
    destruct (h1_iteration_cases bound h1s i h1Node parsed Hi) as [->|[-> ?]].
    + simpl. rewrite (drop_S _ _ _ Hi). simpl.
      replace (i + 1) with (S i) by lia.
      rewrite head_lookup, lookup_drop, Nat.add_0_r.
      apply IH. lia.
    + right. split; [done|]. intros Hall.
      eapply (proj1 (Forall_lookup _ _)) in Hall; [|done]. simpl in Hall. lia.
Qed.

Lemma extract_cases bound root :
  extract bound root = Done (allSections (h1Elements root) [])
  ∨ (extract bound root = OutOfFuel ∧ ¬ enoughFuel bound root).
Proof. unfold extract. by apply for_loop_cases. Qed.

Lemma extract_allSections bound root :
  enoughFuel bound root →
  extract bound root = Done (allSections (h1Elements root) []).
Proof. intros ?. by destruct (extract_cases bound root) as [?|[_ ?]]. Qed.

Lemma extract_Done bound root parsed :
  extract bound root = Done parsed →
  parsed = allSections (h1Elements root) [].
Proof. destruct (extract_cases bound root) as [->|[-> _]]; congruence. Qed.

(** The extraction never reads a property of [undefined]. *)
Lemma extract_no_TypeError bound root : extract bound root ≠ TypeError.
Proof. destruct (extract_cases bound root) as [->|[-> _]]; discriminate. Qed.

(** ** parseSingleTable *)

Lemma parseSingleTable_row_app headers row tableData :
  parseSingleTable_row headers row tableData
  = tableData ++ parseSingleTable_row headers row [].
Proof.
  unfold parseSingleTable_row. case_bool_decide; simpl; [done|].
  by rewrite app_nil_r.
Qed.

Lemma parseSingleTable_rows_app headers rows tableData :
  parseSingleTable_rows headers rows tableData
  = tableData ++ flat_map (fun row => parseSingleTable_row headers row []) rows.
Proof.
  revert tableData. induction rows as [|row rows IH]; intros; simpl.
  - by rewrite app_nil_r.
  - rewrite IH, (parseSingleTable_row_app _ _ tableData). by rewrite <- app_assoc.
Qed.

Lemma obj_set_fresh {V} k (v : V) o :
  k ∉ map fst o → obj_set k v o = o ++ [(k, v)].
Proof.
  induction o as [|[k0 v0] o IH]; simpl; [done|].
  rewrite not_elem_of_cons. intros [Hne Hk].
  rewrite bool_decide_eq_false_2 by congruence. by rewrite IH.
Qed.

(** With pairwise distinct header texts other than [__proto__], the
    [forEach] adds one property for each cell, in the order of the
    cells. *)
Lemma forEach_td_distinct headers tds i rowObj :
  i + length tds ≤ length headers →
  NoDup (map fst rowObj ++ drop i headers) →
  lit "__proto__" ∉ drop i headers →
  forEach_td headers tds i rowObj
  = rowObj ++ zip (drop i headers) (map trimmedText tds).
Proof.
  revert i rowObj. induction tds as [|td tds IH]; intros i rowObj Hlen Hnd Hp.
  - simpl. destruct (drop i headers); simpl; by rewrite app_nil_r.
  - simpl in *.
    destruct (headers !! i) as [h|] eqn:Hi;
      [| apply lookup_ge_None in Hi; lia].
    rewrite (drop_S _ _ _ Hi) in *. simpl.
    apply not_elem_of_cons in Hp as [Hph Hp].
    apply NoDup_app in Hnd as (Hnd1 & Hdisj & Hnd2).
    apply NoDup_cons in Hnd2 as [Hh Hnd2].
    unfold row_set. rewrite bool_decide_eq_false_2 by congruence.
    rewrite obj_set_fresh.
    2:{ intros Hin. apply (Hdisj _ Hin). apply list_elem_of_here. }
    rewrite IH; [by rewrite <- app_assoc | lia | | done].
    rewrite map_app. simpl. apply NoDup_app. split_and!.
    + apply NoDup_app. split_and!; [done | | apply NoDup_singleton].
      intros x Hx Hx'. apply list_elem_of_singleton in Hx'. subst.
      apply (Hdisj _ Hx). apply list_elem_of_here.
    + intros x Hx Hx'. apply elem_of_app in Hx as [Hx|Hx].
      * apply (Hdisj _ Hx). by apply list_elem_of_further.
      * apply list_elem_of_singleton in Hx. by subst.
    + done.
Qed.

Lemma indexKeys_none ks :
  (∀ k, k ∈ ks → arrayIndex k = None) → indexKeys ks = [].
Proof.
  induction ks as [|k ks IH]; intros H; simpl; [done|].
  rewrite (H k) by apply list_elem_of_here.
  apply IH. intros. apply H. by apply list_elem_of_further.
Qed.

(** Without array indexes among the keys, the properties are enumerated
    in the order of their creation. *)
Lemma entries_creation_order {V} (o : obj V) :
  NoDup (map fst o) →
  (∀ k, k ∈ map fst o → arrayIndex k = None) →
  entries o = o.
Proof.
  intros Hnd Hidx. unfold entries, ownKeys.
  rewrite indexKeys_none by done. simpl.
  assert (Hf : filter (λ k, arrayIndex k = None) (map fst o) = map fst o).
  { clear Hnd. induction (map fst o) as [|k ks IH]; [done|].
    rewrite filter_cons_True by (apply Hidx, list_elem_of_here).
    f_equal. apply IH. intros. apply Hidx. by apply list_elem_of_further. }
  rewrite Hf. clear Hf Hidx.
  assert (Hgen : ∀ o', NoDup (map fst o') →
            (∀ k v, (k, v) ∈ o' → obj_get k o = Some v) →
            omap (λ k, (λ v, (k, v)) <$> obj_get k o) (map fst o') = o').
  { induction o' as [|[k v] o' IH]; intros Hnd' Hget; simpl; [done|].
    rewrite (Hget k v) by apply list_elem_of_here. simpl. f_equal.
    apply IH; [by apply NoDup_cons in Hnd' as [_ ?]|].
    intros. apply Hget. by apply list_elem_of_further. }
  apply Hgen; [done|].
  clear Hgen. induction o as [|[k v] o IH]; intros k' v' Hin.
  { by apply elem_of_nil in Hin. }
  simpl in *. apply NoDup_cons in Hnd as [Hk Hnd].
  apply elem_of_cons in Hin as [[= -> ->]|Hin].
  - by rewrite bool_decide_eq_true_2.
  - rewrite bool_decide_eq_false_2; [by apply IH|].
    intros ->. apply Hk. apply list_elem_of_fmap. by exists (k', v').
Qed.

(** ** The result as a function of the sections *)

Lemma includes_elem arr s : includes arr s = true ↔ s ∈ arr.
Proof.
  unfold includes. rewrite existsb_exists. split.
  - intros (x & Hx & Heq). apply bool_decide_eq_true_1 in Heq. subst.
    by apply list_elem_of_In.
  - intros Hs. exists s. split; [by apply list_elem_of_In|].
    by apply bool_decide_eq_true_2.
Qed.

Lemma untilBoundary_elem b l s : s ∈ untilBoundary b l → s ∈ l.
Proof.
  induction l as [|x l IH]; simpl; [done|].
  destruct (notBoundary x b); [| by intros ?%elem_of_nil].
  intros [->|?]%elem_of_cons; [apply list_elem_of_here|].
  apply list_elem_of_further; auto.
Qed.

Lemma siblingsAt_elem_following p i l s :
  s ∈ siblingsAt p i l → length (following s) < length l.
Proof.
  intros [k Hk]%list_elem_of_lookup.
  pose proof (lookup_lt_Some _ _ _ Hk) as Hlt.
  rewrite siblingsAt_length in Hlt.
  apply siblingsAt_lookup in Hk as (_ & _ & _ & ->).
  rewrite length_drop. lia.
Qed.

Lemma sectionSiblings_following h1Node b s :
  s ∈ sectionSiblings h1Node b →
  length (following s) < length (following h1Node).
Proof.
  intros Hs%untilBoundary_elem. by apply siblingsAt_elem_following in Hs.
Qed.

Lemma storeTable_get sub sib k :
  obj_get k (storeTable sub sib)
  = if acceptedH2 sib && bool_decide (trimmedText sib = k)
    then match firstTable (nextSiblings sib) with
         | Some t => Some (parseSingleTable t)
         | None => obj_get k sub
         end
    else obj_get k sub.
Proof.
  unfold storeTable, trimmedText.
  destruct (acceptedH2 sib); simpl; [|done].
  destruct (firstTable (nextSiblings sib)) as [t|]; [| by case_bool_decide].
  case_bool_decide as E.
  - rewrite <- E. apply obj_get_set_eq.
  - by apply obj_get_set_ne.
Qed.

Lemma sectionTables_get_inv sibs sub k v :
  obj_get k (sectionTables sibs sub) = Some v →
  obj_get k sub = Some v
  ∨ ∃ s t, s ∈ sibs ∧ acceptedH2 s = true ∧ trimmedText s = k
           ∧ firstTable (nextSiblings s) = Some t ∧ v = parseSingleTable t.
Proof.
  unfold sectionTables. revert sub.
  induction sibs as [|s sibs IH]; intros sub; simpl; [by left|].
  intros [Hget|(s' & t & ? & ?)]%IH.
  - rewrite storeTable_get in Hget.
    destruct (acceptedH2 s) eqn:Hacc; simpl in Hget; [|by left].
    case_bool_decide as Hk; [|by left].
    destruct (firstTable (nextSiblings s)) as [t|] eqn:Ht; [|by left].
    right. exists s, t. injection Hget as <-.
    split_and!; [apply list_elem_of_here | done..].
  - right. exists s', t. split; [by apply list_elem_of_further | done].
Qed.

Lemma sectionTables_present sibs sub k :
  is_Some (obj_get k sub)
  ∨ (∃ s t, s ∈ sibs ∧ acceptedH2 s = true ∧ trimmedText s = k
            ∧ firstTable (nextSiblings s) = Some t) →
  is_Some (obj_get k (sectionTables sibs sub)).
Proof.
  unfold sectionTables. revert sub.
  induction sibs as [|s sibs IH]; intros sub; simpl.
  - intros [?|(s & t & []%elem_of_nil & _)]. done.
  - intros [Hsub|(s' & t & Hin & Hacc & Hk & Ht)]; apply IH.
    + left. rewrite storeTable_get.
      destruct (_ && _); [|done]. by destruct (firstTable _).
    + apply elem_of_cons in Hin as [->|Hin].
      * left. rewrite storeTable_get, Hacc, Ht. simpl.
        by rewrite bool_decide_eq_true_2.
      * right. by exists s', t.
Qed.

Lemma sectionTables_keys sibs sub k v :
  (k, v) ∈ sectionTables sibs sub → (k, v) ∈ sub ∨ k ∈ H2_WHITELIST.
Proof.
  unfold sectionTables. revert sub.
  induction sibs as [|s sibs IH]; intros sub; simpl; [by left|].
  intros [Hin|?]%IH; [|by right].
  unfold storeTable, acceptedH2 in Hin.
  destruct (tagNamed "h2" (here s)); simpl in Hin; [|by left].
  destruct (includes H2_WHITELIST _) eqn:Hwl; [|by left].
  destruct (firstTable _); [|by left].
  apply obj_set_elem in Hin as [[-> _]|?]; [|by left].
  right. by apply includes_elem.
Qed.

Lemma allSections_get_other h1s parsed k :
  (∀ h, h ∈ h1s → trimmedText h = k → includes H1_WHITELIST k = false) →
  obj_get k (allSections h1s parsed) = obj_get k parsed.
Proof.
  revert parsed. induction h1s as [|h h1s IH]; intros parsed Hno; simpl;
    [done|].
  rewrite IH by (intros h' ??; apply (Hno h');
                   [by apply list_elem_of_further | done]).
  destruct (includes H1_WHITELIST (trim (textContent (here h)))) eqn:Hwl;
    [|done].
  apply obj_get_set_ne. intros Hk.
  pose proof (Hno h (list_elem_of_here _ _) Hk) as Hf.
  unfold trimmedText in Hk. rewrite Hk in Hwl. congruence.
Qed.

Lemma allSections_get_last h1s parsed i h1Node k :
  lastWithText h1s i h1Node k →
  obj_get k (allSections h1s parsed)
  = Some (sectionTables (sectionSiblings h1Node (h1s !! (i + 1))) []).
Proof.
  revert parsed i. induction h1s as [|h h1s IH];
    intros parsed i (Hi & Hk & Hwl & Hlast); [done|].
  destruct i as [|i]; simpl in *.
  - injection Hi as ->. rewrite allSections_get_other.
    + unfold trimmedText in Hk. rewrite Hk, Hwl, head_lookup.
      apply obj_get_set_eq.
    + intros h' [j Hj]%list_elem_of_lookup Hk'.
      by destruct (Hlast (S j) h' ltac:(lia) Hj).
  - apply IH. split_and!; [done..|].
    intros j h' Hj Hh'. apply (Hlast (S j)); [lia | done].
Qed.

Lemma allSections_last_or_none h1s k :
  (∃ i h1Node, lastWithText h1s i h1Node k)
  ∨ (∀ h, h ∈ h1s → trimmedText h = k → includes H1_WHITELIST k = false).
Proof.
  induction h1s as [|h h1s IH].
  { right. by intros h []%elem_of_nil. }
  destruct IH as [(i & h1Node & Hi & Hk & Hwl & Hlast)|Hno].
  - left. exists (S i), h1Node. split_and!; [done..|].
    intros [|j] h' Hj Hh'; [lia|]. apply (Hlast j); [lia | done].
  - destruct (decide (trimmedText h = k)) as [Hk|Hk].
    + destruct (includes H1_WHITELIST k) eqn:Hwl.
      * left. exists 0, h. split_and!; [done..|].
        intros [|j] h' Hj Hh' Hk'; [lia|]. simpl in Hh'.
        assert (h' ∈ h1s) as Hin by (apply list_elem_of_lookup; eauto).
        by specialize (Hno h' Hin Hk').
      * right. by intros.
    + right. intros h' [->|Hin]%elem_of_cons ?; [done | by apply (Hno h')].
Qed.

Lemma allSections_keys_NoDup h1s parsed :
  NoDup (map fst parsed) → NoDup (map fst (allSections h1s parsed)).
Proof.
  revert parsed. induction h1s as [|h h1s IH]; intros parsed Hnd; simpl;
    [done|].
  apply IH. destruct (includes _ _); [|done]. by apply obj_keys_NoDup_set.
Qed.

Lemma allSections_keys h1s parsed k1 sub :
  (k1, sub) ∈ allSections h1s parsed →
  (k1, sub) ∈ parsed
  ∨ (k1 ∈ H1_WHITELIST ∧ ∀ k2 v, (k2, v) ∈ sub → k2 ∈ H2_WHITELIST).
Proof.
  revert parsed. induction h1s as [|h h1s IH]; intros parsed; simpl;
    [by left|].
  intros [Hin|?]%IH; [|by right].
  destruct (includes H1_WHITELIST _) eqn:Hwl; [|by left].
  apply obj_set_elem in Hin as [[-> ->]|?]; [|by left].
  right. split; [by apply includes_elem|].
  intros k2 v [[]%elem_of_nil|?]%sectionTables_keys. done.
Qed.

(** ** findAll and the place of a node *)

Lemma node_children_ind (P : node → Prop) :
  (∀ n, Forall P (children n) → P n) → ∀ n, P n.
Proof.
  intros Hstep. fix IH 1. intros n. apply Hstep.
  destruct n as [d|d|nm d|nm cs|cs|cs]; simpl; try apply Forall_nil_2.
  - induction cs as [|c cs IHcs]; [apply Forall_nil_2|].
    apply Forall_cons_2; [apply IH | apply IHcs].
  - induction cs as [|c cs IHcs]; [apply Forall_nil_2|].
    apply Forall_cons_2; [apply IH | apply IHcs].
  - induction cs as [|c cs IHcs]; [apply Forall_nil_2|].
    apply Forall_cons_2; [apply IH | apply IHcs].
Qed.

(** Induction on forests: a property of the empty forest that passes from
    the children of a node and from its following siblings to the node
    with its siblings holds of every forest. *)
Lemma forest_ind (P : list node → Prop) :
  P [] →
  (∀ n rest, P (children n) → P rest → P (n :: rest)) →
  ∀ l, P l.
Proof.
  intros Hnil Hcons.
  assert (Hnode : ∀ n, P (children n)).
  { induction n as [n IH] using node_children_ind.
    induction (children n) as [|c cs IHcs]; [done|].
    apply Forall_cons in IH as [Hc Hcs]. apply Hcons; auto. }
  induction l as [|n rest IH]; auto.
Qed.

Lemma findAll_node_unfold test p i n sibs :
  findAll_node test p i n sibs
  = (if isTag n && test n
     then [ {| up := p; index := i; here := n; following := sibs |} ]
     else [])
    ++ findAll_forest test (i :: p) 0 (children n).
Proof.
  assert (Hgo : ∀ cs j,
    (fix go (j : nat) (cs : list node) {struct cs} : list ref :=
       match cs with
       | [] => []
       | c :: cs' => findAll_node test (i :: p) j c cs' ++ go (S j) cs'
       end) j cs = findAll_forest test (i :: p) j cs).
  { induction cs as [|c cs IH]; intros j; simpl; [done|]. by rewrite IH. }
  destruct n; simpl; by rewrite ?Hgo.
Qed.

Lemma findAll_forest_cons test p i n rest :
  findAll_forest test p i (n :: rest)
  = (if isTag n && test n
     then [ {| up := p; index := i; here := n; following := rest |} ]
     else [])
    ++ findAll_forest test (i :: p) 0 (children n)
    ++ findAll_forest test p (S i) rest.
Proof. simpl. by rewrite findAll_node_unfold, <- app_assoc. Qed.

(** The matches are the same nodes wherever the forest lies. *)
Lemma findAll_forest_sameHere test l :
  ∀ p i p' i',
    Forall2 sameHere (findAll_forest test p i l) (findAll_forest test p' i' l).
Proof.
  induction l as [|n rest IHn IHrest] using forest_ind; intros p i p' i'.
  { constructor. }
  rewrite !findAll_forest_cons.
  apply Forall2_app; [| apply Forall2_app; [apply IHn | apply IHrest]].
  destruct (isTag n && test n); by repeat constructor.
Qed.

Lemma findAll_node_sameHere test n p i sibs p' i' sibs' :
  Forall2 sameHere (findAll_node test p i n sibs)
    (findAll_node test p' i' n sibs').
Proof.
  rewrite !findAll_node_unfold.
  apply Forall2_app; [| apply findAll_forest_sameHere].
  destruct (isTag n && test n); by repeat constructor.
Qed.

Lemma findAll_sameHere test a b :
  sameHere a b → Forall2 sameHere (findAll test a) (findAll test b).
Proof.
  unfold sameHere, findAll. intros ->. apply findAll_node_sameHere.
Qed.

Lemma findAll_forest_length test p i l :
  length (findAll_forest test p i l) = matches test l.
Proof. eapply Forall2_length, findAll_forest_sameHere. Qed.

Lemma matches_cons test n rest :
  matches test (n :: rest)
  = (if isTag n && test n then 1 else 0)
    + matches test (children n) + matches test rest.
Proof.
  unfold matches at 1. rewrite findAll_forest_cons, !length_app.
  rewrite !findAll_forest_length. destruct (isTag n && test n); simpl; lia.
Qed.



Lemma findAll_forest_elem test l :
  ∀ p i r, r ∈ findAll_forest test p i l →
    isTag (here r) && test (here r) = true
    ∧ matches test (here r :: following r)
      ≤ length (findAll_forest test p i l).
Proof.
  induction l as [|n rest IHn IHrest] using forest_ind; intros p i r.
  { by intros ?%elem_of_nil. }
  rewrite findAll_forest_cons, !length_app.
  intros [Hr|[Hr|Hr]%elem_of_app]%elem_of_app.
  - destruct (isTag n && test n) eqn:Htest; [| by apply elem_of_nil in Hr].
    apply list_elem_of_singleton in Hr as ->. simpl. split; [done|].
    rewrite matches_cons, Htest, !findAll_forest_length. simpl. lia.
  - apply IHn in Hr as [? ?]. split; [done | lia].
  - apply IHrest in Hr as [? ?]. split; [done | lia].
Qed.

(** ** What a section depends on *)

Lemma forEach_td_sameHere headers tds tds' i rowObj :
  Forall2 sameHere tds tds' →
  forEach_td headers tds i rowObj = forEach_td headers tds' i rowObj.
Proof.
  intros H. revert i rowObj.
  induction H as [|td td' tds tds' Htd _ IH]; intros i rowObj; simpl; [done|].
  unfold sameHere in Htd. by rewrite Htd, IH.
Qed.

Lemma parseSingleTable_row_sameHere headers row row' tableData :
  sameHere row row' →
  parseSingleTable_row headers row tableData
  = parseSingleTable_row headers row' tableData.
Proof.
  intros H. unfold parseSingleTable_row.
  pose proof (findAll_sameHere (tagNamed "td") _ _ H) as Htds.
  rewrite (Forall2_length _ _ _ Htds).
  by rewrite (forEach_td_sameHere _ _ _ _ _ Htds).
Qed.

Lemma parseSingleTable_rows_sameHere headers rows rows' tableData :
  Forall2 sameHere rows rows' →
  parseSingleTable_rows headers rows tableData
  = parseSingleTable_rows headers rows' tableData.
Proof.
  intros H. revert tableData.
  induction H as [|row row' rows rows' Hrow _ IH]; intros; simpl; [done|].
  by rewrite (parseSingleTable_row_sameHere _ _ _ _ Hrow), IH.
Qed.

(** The materialised table depends on the table node alone, not on its
    place. *)
Lemma parseSingleTable_sameHere a b :
  sameHere a b → parseSingleTable a = parseSingleTable b.
Proof.
  intros H. unfold parseSingleTable.
  rewrite (parseSingleTable_rows_sameHere _ _ _ _
             (findAll_sameHere (tagNamed "tr") _ _ H)).
  f_equal.
  pose proof (findAll_sameHere (tagNamed "th") _ _ H) as Hths.
  induction Hths as [|th th' ths ths' Hth _ IH]; simpl; [done|].
  unfold sameHere in Hth. by rewrite Hth, IH.
Qed.





(** The section loop stops at the boundary when the boundary is among
    the siblings. *)
Lemma untilBoundary_take p i l b :
  up b = p → i ≤ index b →
  untilBoundary (Some b) (siblingsAt p i l)
  = take (index b - i) (siblingsAt p i l).
Proof.
  intros Hup. revert i. induction l as [|n l IH]; intros i Hi; simpl.
  { by rewrite take_nil. }
  unfold sameNode. simpl. rewrite Hup, bool_decide_eq_true_2 by done. simpl.
  case_bool_decide as E; simpl.
  - subst i. by rewrite Nat.sub_diag.
  - rewrite IH by lia. replace (index b - i) with (S (index b - S i)) by lia.
    done.
Qed.

(** ** The claims *)

(** C1, as amended.  For every table node without row elements,
    [parseSingleTable] returns the empty sequence.  For a table node
    without header cells it returns one empty record for every row element
    that has no data cell, and nothing for the rows that have one: the
    sequence is empty only when every row has a data cell.  Whatever
    sequence is returned, empty or not, the section loop stores it under
    the sub-level key of the accepted heading whose scan found the
    table. *)
Theorem parseSingleTable_without_rows_or_headers tableNode :
  (findAll (tagNamed "tr") tableNode = [] → parseSingleTable tableNode = [])
  ∧ (findAll (tagNamed "th") tableNode = [] →
     parseSingleTable tableNode
     = map (fun _ => [])
         (filter (fun row => length (findAll (tagNamed "td") row) = 0)
            (findAll (tagNamed "tr") tableNode)))
  ∧ (∀ bound fuel h1Text nextH1Node sib parsed sub,
       obj_get h1Text parsed = Some sub →
       notBoundary sib nextH1Node = true →
       acceptedH2 sib = true →
       findNextTableSibling bound sib = Done (Some tableNode) →
       parseHtmlH1H2Tables_siblings bound (S fuel) h1Text nextH1Node
         (Some sib) parsed
       = parseHtmlH1H2Tables_siblings bound fuel h1Text nextH1Node
           (nextSibling sib)
           (obj_set h1Text
              (obj_set (trimmedText sib) (parseSingleTable tableNode) sub)
              parsed)).
Proof.
  split_and!.
  - intros Hrows. unfold parseSingleTable. by rewrite Hrows.
  - intros Hths. unfold parseSingleTable. rewrite Hths. simpl.
    rewrite parseSingleTable_rows_app. simpl.
    induction (findAll (tagNamed "tr") tableNode) as [|row rows IH];
      simpl; [done|].
    unfold parseSingleTable_row at 1. simpl.
    destruct (findAll (tagNamed "td") row) as [|td tds] eqn:Htds; simpl.
    + rewrite filter_cons_True by (by rewrite Htds). simpl. by rewrite IH.
    + rewrite filter_cons_False by (by rewrite Htds). by rewrite IH.
  - intros bound fuel h1Text nextH1Node sib parsed sub Hsub Hnb Hacc Hscan.
    unfold acceptedH2 in Hacc. apply andb_true_iff in Hacc as [Hh2 Hwl].
    simpl. rewrite Hnb, Hh2, Hwl. simpl. rewrite Hscan. simpl.
    unfold assignTable. by rewrite Hsub.
Qed.

(** C1 as stated fails for a table without header cells: each of its
    rows without data cells has as many data cells as there are headers,
    none, and yields an empty record. *)
Lemma headerless_table_yields_empty_records :
  ¬ (∀ tableNode,
       findAll (tagNamed "th") tableNode = []
       ∨ findAll (tagNamed "tr") tableNode = [] →
       parseSingleTable tableNode = []).
Proof.
  intros H. specialize (H headerlessTable (or_introl eq_refl)).
  vm_compute in H. discriminate.
Qed.

Example rowless_table_stored :
  extract 2 rowlessDocument
  = Done [ (lit "Call of Duty: Vanguard", [ (lit "PromoCodes", []) ]) ].
Proof. reflexivity. Qed.

Example headerless_table_stored :
  extract 2 headerlessDocument
  = Done [ (lit "Call of Duty: Vanguard", [ (lit "PromoCodes", [ []; [] ]) ]) ].
Proof. reflexivity. Qed.

(** C2, as amended.  For every result of the extraction, a sub-level key
    [k2] is present under a top-level key [k1] if and only if, in the
    section of the last top-level heading with the text [k1], a sub-level
    heading with the trimmed text [k2] passed the whitelist check and a
    table follows it before the next heading; so a key is present only if
    such a heading with its table lies under some heading with the text
    [k1].  The sequence stored under a present key is always the
    materialised table found for such a heading, so a key is never present
    (with an empty sequence or otherwise) for want of a table. *)
Theorem sub_key_present_iff_table_found bound root :
  enoughFuel bound root →
  ∃ parsed,
    extract bound root = Done parsed
    ∧ ∀ k1 k2,
        (subKeyPresent parsed k1 k2 ↔ ∃ t, tableFound root k1 k2 t)
        ∧ (subKeyPresent parsed k1 k2 → ∃ t, tableFoundUnder root k1 k2 t)
        ∧ (∀ sub v, obj_get k1 parsed = Some sub → obj_get k2 sub = Some v →
             ∃ t, tableFound root k1 k2 t ∧ v = parseSingleTable t).
Proof.
  intros Hfuel. eexists. split; [by apply extract_allSections|].
  intros k1 k2.
  assert (Hval : ∀ sub v,
    obj_get k1 (allSections (h1Elements root) []) = Some sub →
    obj_get k2 sub = Some v →
    ∃ t, tableFound root k1 k2 t ∧ v = parseSingleTable t).
  { intros sub v Hsub Hv.
    destruct (allSections_last_or_none (h1Elements root) k1)
      as [(i & h1Node & Hlast)|Hno].
    2:{ by rewrite allSections_get_other in Hsub. }
    rewrite (allSections_get_last _ _ _ _ _ Hlast) in Hsub.
    injection Hsub as <-.
    apply sectionTables_get_inv in Hv
      as [?|(s & t & Hin & Hacc & Hk & Ht & ->)]; [done|].
    exists t. split; [|done]. exists i, h1Node. split; [done|].
    exists s. split_and!; [done..|]. by apply firstTable_Some. }
  assert (Hpresent : subKeyPresent (allSections (h1Elements root) []) k1 k2 →
                     ∃ t, tableFound root k1 k2 t).
  { intros (sub & Hsub & [v Hv]).
    destruct (Hval sub v Hsub Hv) as (t & ? & _). by exists t. }
  split_and!; [split | | done].
  - done.
  - intros (t & i & h1Node & Hlast & s & Hin & Hacc & Hk & Hscan).
    eexists. split; [by apply allSections_get_last|].
    apply sectionTables_present. right. exists s, t.
    split_and!; [done..|]. by apply firstTable_Some.
  - intros (t & i & h1Node & (Hi & Hk & Hwl & _) & Hfound)%Hpresent.
    by exists t, i, h1Node.
Qed.

Lemma sub_key_present_iff_table_found_witness :
  subKeyPresent
    [ (lit "Call of Duty: Vanguard",
       [ (lit "Sessions Data (reverse chronological)", [sampleRecord]) ]) ]
    (lit "Call of Duty: Vanguard")
    (lit "Sessions Data (reverse chronological)")
  ↔ ∃ t, tableFound scenarioC (lit "Call of Duty: Vanguard")
           (lit "Sessions Data (reverse chronological)") t.
Proof.
  destruct (sub_key_present_iff_table_found 4 scenarioC) as (parsed & Hp & H).
  - by_evaluation (Forall (fun h1Node => length (following h1Node) ≤ 4)
                (h1Elements scenarioC)).
  - vm_compute in Hp. injection Hp as <-.
    exact (proj1 (H (lit "Call of Duty: Vanguard")
                    (lit "Sessions Data (reverse chronological)"))).
Defined.

(** C2 as stated fails when a top-level heading text occurs twice: the
    first heading of [duplicateH1Document] is followed by the whitelisted
    sub-level heading [PromoCodes] and its table, yet the result has no
    key [PromoCodes], since the second heading with the same text
    replaces the sub-map of the first (see C8). *)
Lemma sub_key_of_earlier_duplicate_heading_absent :
  ¬ (∀ bound root,
       enoughFuel bound root →
       ∃ parsed,
         extract bound root = Done parsed
         ∧ ∀ k1 k2,
             subKeyPresent parsed k1 k2
             ↔ ∃ t, tableFoundUnder root k1 k2 t).
Proof.
  intros H. destruct (H 5 duplicateH1Document) as (parsed & Hp & Hiff).
  { by_evaluation (Forall (fun h1Node => length (following h1Node) ≤ 5)
                     (h1Elements duplicateH1Document)). }
  vm_compute in Hp. injection Hp as <-.
  destruct (proj2 (Hiff (lit "Call of Duty: Vanguard") (lit "PromoCodes")))
    as (sub & Hsub & Hk2).
  - exists {| up := [0]; index := 2; here := sampleTable;
              following :=
                [ el "h1" [tx "Call of Duty: Vanguard"];
                  el "h2" [tx "Sessions Data (reverse chronological)"];
                  sampleTable ] |}.
    exists 0. eexists. split_and!; [reflexivity..|].
    eexists. split_and!.
    + apply list_elem_of_lookup. exists 0. reflexivity.
    + reflexivity.
    + reflexivity.
    + exists 0. split_and!; [reflexivity..|]. intros j s Hj. lia.
  - vm_compute in Hsub. injection Hsub as <-.
    vm_compute in Hk2. by destruct Hk2.
Qed.

(** Scenarios B and C: the sub-level key of a heading that is not
    whitelisted, or that has no table, is absent. *)
Example scenarioB_result :
  extract 2 scenarioB = Done [ (lit "Call of Duty: Vanguard", []) ].
Proof. reflexivity. Qed.

Example scenarioC_result :
  extract 4 scenarioC
  = Done [ (lit "Call of Duty: Vanguard",
            [ (lit "Sessions Data (reverse chronological)", [sampleRecord]) ]) ].
Proof. reflexivity. Qed.

(** C3, as amended.  For every table row whose count of data cells equals
    the count N of header cells, when the header texts are pairwise
    distinct and none of them is [__proto__], [parseSingleTable] emits for
    that row, between the records of the rows before it and those of the
    rows after it, a record with N fields, created in header order, where
    field i is keyed by the trimmed text of header cell i and has the
    trimmed text of data cell i as value; the fields are also enumerated
    in header order when no header text is an array index. *)
Theorem aligned_row_record tableNode before row after :
  findAll (tagNamed "tr") tableNode = before ++ row :: after →
  length (findAll (tagNamed "td") row)
  = length (findAll (tagNamed "th") tableNode) →
  NoDup (map trimmedText (findAll (tagNamed "th") tableNode)) →
  lit "__proto__" ∉ map trimmedText (findAll (tagNamed "th") tableNode) →
  ∃ rowObj,
    parseSingleTable tableNode
    = parseSingleTable_rows
        (map trimmedText (findAll (tagNamed "th") tableNode)) before []
      ++ [rowObj]
      ++ parseSingleTable_rows
           (map trimmedText (findAll (tagNamed "th") tableNode)) after []
    ∧ rowObj = zip (map trimmedText (findAll (tagNamed "th") tableNode))
                   (map trimmedText (findAll (tagNamed "td") row))
    ∧ length rowObj = length (findAll (tagNamed "th") tableNode)
    ∧ (∀ i th td, findAll (tagNamed "th") tableNode !! i = Some th →
         findAll (tagNamed "td") row !! i = Some td →
         obj_get (trimmedText th) rowObj = Some (trimmedText td))
    ∧ ((∀ th, th ∈ findAll (tagNamed "th") tableNode →
               arrayIndex (trimmedText th) = None) →
       entries rowObj = rowObj).
Proof.
  set (headers := map trimmedText (findAll (tagNamed "th") tableNode)).
  set (tds := findAll (tagNamed "td") row).
  intros Hrows Hlen Hnd Hp.
  assert (Hlen' : length tds = length headers)
    by (unfold headers; by rewrite length_map).
  assert (Hkeys : map fst (zip headers (map trimmedText tds)) = headers).
  { apply fst_zip. rewrite length_map. lia. }
  eexists. split_and!; [| reflexivity | | |].
  - unfold parseSingleTable. fold trimmedText. fold headers. rewrite Hrows.
    rewrite !parseSingleTable_rows_app, flat_map_app. simpl.
    f_equal. f_equal.
    unfold parseSingleTable_row. fold tds.
    rewrite bool_decide_eq_true_2 by done.
    rewrite forEach_td_distinct; [done | simpl; lia | done | done].
  - rewrite length_zip, length_map. unfold headers in *.
    rewrite length_map in *. lia.
  - intros i th td Hth Htd.
    assert (Hh : headers !! i = Some (trimmedText th))
      by (unfold headers; by rewrite list_lookup_fmap, Hth).
    assert (Hin : (trimmedText th, trimmedText td)
                  ∈ zip headers (map trimmedText tds)).
    { apply list_elem_of_lookup. exists i.
      apply lookup_zip_with_Some. exists (trimmedText th), (trimmedText td).
      split_and!; [done..|]. by rewrite list_lookup_fmap, Htd. }
    destruct (obj_elem_get _ _ _ Hin) as [v Hv].
    rewrite Hv. f_equal.
    apply obj_get_Some_elem in Hv.
    apply list_elem_of_lookup in Hv as [j Hj], Hin as [i' Hi'].
    assert (j = i'); [|congruence].
    eapply NoDup_lookup; [apply Hnd | |].
    + fold headers. rewrite <- Hkeys, list_lookup_fmap, Hj. done.
    + fold headers. rewrite <- Hkeys, list_lookup_fmap, Hi'. done.
  - intros Hidx. apply entries_creation_order; rewrite Hkeys; [done|].
    intros k [th [-> Hth]]%list_elem_of_fmap. by apply Hidx.
Qed.

Lemma aligned_row_record_witness :
  ∃ rowObj,
    parseSingleTable sampleTableRef
    = parseSingleTable_rows [lit "Header1"; lit "Header2"]
        [ sampleHeaderRow ] []
      ++ [rowObj]
      ++ parseSingleTable_rows [lit "Header1"; lit "Header2"] [] []
    ∧ rowObj = sampleRecord.
Proof.
  destruct (aligned_row_record sampleTableRef [sampleHeaderRow] sampleDataRow [])
    as (rowObj & H1 & H2 & _).
  - reflexivity.
  - reflexivity.
  - by_evaluation (NoDup [lit "Header1"; lit "Header2"]).
  - by_evaluation (lit "__proto__" ∉ [lit "Header1"; lit "Header2"]).
  - exists rowObj. split; [exact H1 | exact H2].
Defined.

(** C3 as stated fails when two header cells have the same text: the
    later column overwrites the field of the earlier one, and the record
    of a row with two cells has one field. *)
Lemma aligned_row_record_fails_on_duplicate_headers :
  ¬ (∀ tableNode before row after,
       findAll (tagNamed "tr") tableNode = before ++ row :: after →
       length (findAll (tagNamed "td") row)
       = length (findAll (tagNamed "th") tableNode) →
       ∃ rowObj,
         parseSingleTable tableNode
         = parseSingleTable_rows
             (map trimmedText (findAll (tagNamed "th") tableNode)) before []
           ++ [rowObj]
           ++ parseSingleTable_rows
                (map trimmedText (findAll (tagNamed "th") tableNode)) after []
         ∧ entries rowObj
           = zip (map trimmedText (findAll (tagNamed "th") tableNode))
                 (map trimmedText (findAll (tagNamed "td") row))).
Proof.
  intros H.
  destruct (H duplicateHeaderTable [duplicateHeaderHead] duplicateHeaderRow []
              eq_refl eq_refl)
    as (rowObj & Hrow & Hent).
  vm_compute in Hrow. injection Hrow as <-.
  vm_compute in Hent. discriminate.
Qed.

Example duplicate_header_table_result :
  parseSingleTable duplicateHeaderTable = [ [ (lit "A", lit "2") ] ].
Proof. reflexivity. Qed.

(** Two further inputs on which the fields are not the header/cell pairs
    in header order: a header [__proto__] creates no field, and array
    indexes are enumerated first, in ascending order. *)
Example proto_header_creates_no_field :
  forEach_td [lit "__proto__"; lit "B"]
    (findAll (tagNamed "td") duplicateHeaderRow) 0 []
  = [(lit "B", lit "2")].
Proof. reflexivity. Qed.

Example index_headers_enumerated_first :
  entries (forEach_td [lit "B"; lit "7"]
             (findAll (tagNamed "td") duplicateHeaderRow) 0 [])
  = [(lit "7", lit "2"); (lit "B", lit "1")].
Proof. reflexivity. Qed.

(** C4.  For every table row whose data-cell count differs from the
    header-cell count, [parseSingleTable] emits no record for that row,
    and the table's result is what its loop produces from the other rows
    alone, with the same column keys. *)
Theorem misaligned_row_discarded tableNode before row after :
  findAll (tagNamed "tr") tableNode = before ++ row :: after →
  length (findAll (tagNamed "td") row)
  ≠ length (findAll (tagNamed "th") tableNode) →
  (∀ tableData,
     parseSingleTable_row (map trimmedText (findAll (tagNamed "th") tableNode))
       row tableData = tableData)
  ∧ parseSingleTable tableNode
    = parseSingleTable_rows
        (map trimmedText (findAll (tagNamed "th") tableNode))
        (before ++ after) [].
Proof.
  intros Hrows Hne.
  assert (Hrow : ∀ tableData,
    parseSingleTable_row (map trimmedText (findAll (tagNamed "th") tableNode))
      row tableData = tableData).
  { intros. unfold parseSingleTable_row.
    rewrite bool_decide_eq_false_2; [done|]. by rewrite length_map. }
  split; [done|].
  unfold parseSingleTable. fold trimmedText. rewrite Hrows.
  rewrite !parseSingleTable_rows_app, !flat_map_app. simpl.
  by rewrite Hrow.
Qed.

Lemma misaligned_row_discarded_witness :
  parseSingleTable headerlessTable
  = parseSingleTable_rows []
      ([ {| up := [2; 0]; index := 0; here := el "tr" [];
            following := [ el "tr" [ el "td" [tx "x"] ]; el "tr" [] ] |} ]
       ++ [ {| up := [2; 0]; index := 2; here := el "tr" [];
               following := [] |} ]) [].
Proof.
  refine (proj2 (misaligned_row_discarded headerlessTable _
                   {| up := [2; 0]; index := 1;
                      here := el "tr" [ el "td" [tx "x"] ];
                      following := [ el "tr" [] ] |} _ _ _)).
  - reflexivity.
  - vm_compute. lia.
Defined.

(** C5.  For every start node, [findNextTableSibling] returns the first
    next sibling that is a [table] element, in document order: the table
    is returned when no heading ([h1] or [h2] element) and no other table
    precedes it among the next siblings; [null] is returned when a heading
    comes before any table, and when the siblings are exhausted without a
    table.  Whatever table is returned is of the first kind.  [fuel]
    bounds the iterations of the loop and is enough from the number of
    following siblings on. *)
Theorem findNextTableSibling_first_table_or_null fuel start :
  length (following start) ≤ fuel →
  (∀ k t, nextSiblings start !! k = Some t →
     tagNamed "table" (here t) = true →
     (∀ j s, j < k → nextSiblings start !! j = Some s → stopsScan s = false) →
     findNextTableSibling fuel start = Done (Some t))
  ∧ (∀ k s, nextSiblings start !! k = Some s →
       tagNamed "h2" (here s) || tagNamed "h1" (here s) = true →
       (∀ j u, j < k → nextSiblings start !! j = Some u →
               tagNamed "table" (here u) = false) →
       findNextTableSibling fuel start = Done None)
  ∧ ((∀ s, s ∈ nextSiblings start → tagNamed "table" (here s) = false) →
     findNextTableSibling fuel start = Done None)
  ∧ (∀ t, findNextTableSibling fuel start = Done (Some t) →
       ∃ k, nextSiblings start !! k = Some t
            ∧ tagNamed "table" (here t) = true
            ∧ ∀ j s, j < k → nextSiblings start !! j = Some s →
                     stopsScan s = false).
Proof.
  intros Hf. rewrite findNextTableSibling_firstTable by done.
  split_and!.
  - intros k t Hk Ht Hb. f_equal. apply firstTable_Some. eauto.
  - intros k s Hk Hs Hb. f_equal. eapply firstTable_None_heading; eauto.
  - intros Hb. f_equal. by apply firstTable_None_no_table.
  - intros t [= Ht]. by apply firstTable_Some.
Qed.

Lemma findNextTableSibling_first_table_or_null_witness :
  length (following sampleH2) ≤ 4
  ∧ findNextTableSibling 4 sampleH2
    = Done (Some {| up := [0]; index := 2; here := sampleTable;
                    following := [ el "table" []; el "h1" [tx "y"] ] |}).
Proof.
  split; [vm_compute; lia|].
  refine (proj1 (findNextTableSibling_first_table_or_null 4 sampleH2 _)
            1 _ _ _ _).
  - vm_compute. lia.
  - reflexivity.
  - reflexivity.
  - intros [|j] s Hj; [intros [= <-]; reflexivity | lia].
Defined.

(** C6.  For every HTML input whose document has no top-level heading
    with a trimmed text in [H1_WHITELIST], [parseHtmlH1H2Tables] returns
    the empty mapping, whatever the bound on the loops. *)
Theorem no_whitelisted_h1_gives_empty_mapping parseDocument bound html :
  (∀ h1Node, h1Node ∈ h1Elements (parseDocument html) →
     includes H1_WHITELIST (trimmedText h1Node) = false) →
  parseHtmlH1H2Tables parseDocument bound html = Done [].
Proof.
  unfold parseHtmlH1H2Tables, extract.
  generalize (h1Elements (parseDocument html)) as h1s. intros h1s Hno.
  assert (Hfor : ∀ todo i, i + todo = length h1s →
            parseHtmlH1H2Tables_for bound h1s i todo [] = Done []).
  { induction todo as [|todo IH]; intros i Hlen; simpl; [done|].
    destruct (h1s !! i) as [h1Node|] eqn:Hi;
      [| apply lookup_ge_None in Hi; lia].
    unfold parseHtmlH1H2Tables_h1. rewrite Hi.
    fold (trimmedText h1Node).
    rewrite (Hno h1Node) by (apply list_elem_of_lookup; eauto).
    simpl. apply IH. lia. }
  by apply Hfor.
Qed.

Lemma no_whitelisted_h1_gives_empty_mapping_witness :
  parseHtmlH1H2Tables (fun _ => scenarioD) 0 (lit "<h1>Patch notes</h1>")
  = Done [].
Proof.
  apply no_whitelisted_h1_gives_empty_mapping.
  intros h1Node Hin.
  change (h1Elements scenarioD)
    with [ {| up := [0]; index := 0; here := el "h1" [tx "Patch notes"];
              following := [ el "h2" [tx "PromoCodes"]; sampleTable ] |} ]
    in Hin.
  apply list_elem_of_singleton in Hin. rewrite Hin. reflexivity.
Defined.



Example scenarioE_result :
  extract 5 scenarioE
  = Done [ (lit "Call of Duty: Vanguard",
            [ (lit "PromoCodes", [sampleRecord]) ]);
           (lit "Call of Duty: Warzone 2.0",
            [ (lit "Sessions Data (reverse chronological)",
               [sampleRecord]) ]) ].
Proof. reflexivity. Qed.


(** C8.  When a whitelisted top-level heading text occurs on several
    heading nodes, the result has a single key for that text, and its
    sub-map is that of the last occurrence alone: it is what visiting, from
    an empty sub-map, the siblings after the last occurrence (up to the
    next collected heading) builds, so each of its keys is the text of an
    accepted sub-level heading among those siblings and holds the
    materialised table found after that heading, and every such heading
    with a table has its key; nothing of the sections of the earlier
    occurrences is in it.  The iteration for the last occurrence replaces
    whatever was stored under the text by this sub-map. *)
Theorem duplicate_h1_last_occurrence_wins bound root i h1Node k :
  enoughFuel bound root →
  lastWithText (h1Elements root) i h1Node k →
  ∃ parsed sub,
    extract bound root = Done parsed
    ∧ obj_get k parsed = Some sub
    ∧ NoDup (map fst parsed)
    ∧ sub = sectionTables
              (sectionSiblings h1Node (h1Elements root !! (i + 1))) []
    ∧ (∀ sib, sib ∈ sectionSiblings h1Node (h1Elements root !! (i + 1)) →
         sib ∈ nextSiblings h1Node)
    ∧ (∀ k2 v, obj_get k2 sub = Some v →
         ∃ t, tableFoundIn (h1Elements root) i h1Node k2 t
              ∧ v = parseSingleTable t)
    ∧ (∀ k2 t, tableFoundIn (h1Elements root) i h1Node k2 t →
         is_Some (obj_get k2 sub))
    ∧ ∀ parsed0,
        parseHtmlH1H2Tables_h1 bound (h1Elements root) i parsed0
        = Done (obj_set k sub parsed0).
Proof.
  intros Hfuel Hlast. pose proof Hlast as (Hi & Hk & Hwl & _).
  eexists _, _. split_and!.
  - by apply extract_allSections.
  - by apply allSections_get_last.
  - apply allSections_keys_NoDup. constructor.
  - done.
  - intros sib. apply untilBoundary_elem.
  - intros k2 v Hv.
    apply sectionTables_get_inv in Hv
      as [?|(s & t & Hin & Hacc & Hk2 & Ht & ->)]; [done|].
    exists t. split; [|done]. exists s.
    split_and!; [done..|]. by apply firstTable_Some.
  - intros k2 t (s & Hin & Hacc & Hk2 & Ht).
    apply sectionTables_present. right. exists s, t.
    split_and!; [done..|]. by apply firstTable_Some.
  - intros parsed0.
    destruct (h1_iteration_cases bound _ i h1Node parsed0 Hi) as [->|[_ Hlt]].
    + simpl. unfold trimmedText in Hk. by rewrite Hk, Hwl.
    + eapply (proj1 (Forall_lookup _ _)) in Hfuel; [|done].
      simpl in Hfuel. lia.
Qed.

Lemma duplicate_h1_last_occurrence_wins_witness :
  ∃ parsed sub,
    extract 5 duplicateH1Document = Done parsed
    ∧ obj_get (lit "Call of Duty: Vanguard") parsed = Some sub
    ∧ NoDup (map fst parsed)
    ∧ sub = sectionTables
              (sectionSiblings duplicateH1_last
                 (h1Elements duplicateH1Document !! (1 + 1))) []
    ∧ (∀ sib,
         sib ∈ sectionSiblings duplicateH1_last
                 (h1Elements duplicateH1Document !! (1 + 1)) →
         sib ∈ nextSiblings duplicateH1_last)
    ∧ (∀ k2 v, obj_get k2 sub = Some v →
         ∃ t, tableFoundIn (h1Elements duplicateH1Document) 1
                duplicateH1_last k2 t
              ∧ v = parseSingleTable t)
    ∧ (∀ k2 t,
         tableFoundIn (h1Elements duplicateH1Document) 1 duplicateH1_last
           k2 t →
         is_Some (obj_get k2 sub))
    ∧ ∀ parsed0,
        parseHtmlH1H2Tables_h1 5 (h1Elements duplicateH1Document) 1 parsed0
        = Done (obj_set (lit "Call of Duty: Vanguard") sub parsed0).
Proof.
  apply (duplicate_h1_last_occurrence_wins 5 duplicateH1Document 1
           duplicateH1_last).
  - unfold enoughFuel.
    by_evaluation (Forall (fun h1Node => length (following h1Node) ≤ 5)
                (h1Elements duplicateH1Document)).
  - split_and!; [reflexivity | reflexivity | reflexivity |].
    intros [|[|j]] h Hj Hh; [lia | lia | discriminate Hh].
Defined.

Example duplicate_h1_result :
  extract 2 duplicateH1Document
  = Done [ (lit "Call of Duty: Vanguard",
            [ (lit "Sessions Data (reverse chronological)", [sampleRecord]) ]) ].
Proof. reflexivity. Qed.

(** C9.  For every mapping returned by the extraction, every top-level
    key is an element of [H1_WHITELIST] and every sub-level key under it
    is an element of [H2_WHITELIST]. *)
Theorem keys_are_whitelisted bound root parsed :
  extract bound root = Done parsed →
  ∀ k1 sub, (k1, sub) ∈ parsed →
    k1 ∈ H1_WHITELIST ∧ ∀ k2 v, (k2, v) ∈ sub → k2 ∈ H2_WHITELIST.
Proof.
  intros ->%extract_Done k1 sub [[]%elem_of_nil|?]%allSections_keys. done.
Qed.

Example scenarioA_result :
  extract 2 scenarioA
  = Done [ (lit "Call of Duty: Vanguard",
            [ (lit "PromoCodes", [sampleRecord]) ]) ].
Proof. reflexivity. Qed.

Lemma keys_are_whitelisted_witness :
  extract 2 scenarioA
  = Done [ (lit "Call of Duty: Vanguard",
            [ (lit "PromoCodes", [sampleRecord]) ]) ]
  ∧ lit "Call of Duty: Vanguard" ∈ H1_WHITELIST
  ∧ lit "PromoCodes" ∈ H2_WHITELIST.
Proof.
  split; [reflexivity|].
  destruct (keys_are_whitelisted 2 scenarioA _ eq_refl
              (lit "Call of Duty: Vanguard")
              [ (lit "PromoCodes", [sampleRecord]) ]) as [H1 H2].
  - apply list_elem_of_here.
  - split; [exact H1|]. apply (H2 _ [sampleRecord]). apply list_elem_of_here.
Defined.

(** C10.  For every input string [parseHtmlH1H2Tables] terminates: from
    some bound on, bounding the iterations of its [while] loops does not
    stop it from returning a mapping.  The [for] loop runs once for each
    collected heading; [findNextTableSibling] returns from every start node
    within as many iterations as the node has following siblings; and
    [nextSibling] moves strictly forward: the index grows by one and one
    sibling less is left. *)
Theorem parseHtmlH1H2Tables_terminates parseDocument html :
  (∃ bound0, ∀ bound, bound0 ≤ bound →
     ∃ parsed, parseHtmlH1H2Tables parseDocument bound html = Done parsed)
  ∧ (∀ start fuel, length (following start) ≤ fuel →
       ∃ tableNode, findNextTableSibling fuel start = Done tableNode)
  ∧ (∀ r r', nextSibling r = Some r' →
       up r' = up r ∧ index r' = S (index r)
       ∧ S (length (following r')) = length (following r)).
Proof.
  split_and!.
  - unfold parseHtmlH1H2Tables.
    assert (Hb : ∃ bound0,
              Forall (fun h1Node => length (following h1Node) ≤ bound0)
                (h1Elements (parseDocument html))).
    { induction (h1Elements (parseDocument html)) as [|h l [b IH]].
      - by exists 0.
      - exists (max (length (following h)) b). constructor; [lia|].
        eapply Forall_impl; [exact IH|]. simpl. intros; lia. }
    destruct Hb as [bound0 Hb]. exists bound0. intros bound Hle.
    eexists. apply extract_allSections.
    eapply Forall_impl; [exact Hb|]. simpl. intros; lia.
  - intros start fuel Hf. eexists.
    by apply findNextTableSibling_firstTable.
  - apply nextSibling_forward.
Qed.

(** * Further properties of parse.ts *)

(** ** parseSingleTable *)

Lemma forEach_td_get_other headers tds i rowObj k :
  (∀ q, q < length tds → headers !! (i + q) ≠ Some k) →
  i + length tds ≤ length headers →
  obj_get k (forEach_td headers tds i rowObj) = obj_get k rowObj.
Proof.
  revert i rowObj. induction tds as [|td tds IH]; intros i rowObj Hk Hlen;
    simpl in *; [done|].
  destruct (headers !! i) as [h|] eqn:Hi; [| apply lookup_ge_None in Hi; lia].
  simpl. rewrite IH; [| | lia].
  - unfold row_set. case_bool_decide; [done|].
    apply obj_get_set_ne. intros ->.
    apply (Hk 0); [lia|]. by rewrite Nat.add_0_r.
  - intros q Hq. replace (S i + q) with (i + S q) by lia. apply Hk. lia.
Qed.

Lemma forEach_td_get_last headers tds i rowObj k p td :
  headers !! (i + p) = Some k →
  tds !! p = Some td →
  k ≠ lit "__proto__" →
  (∀ q, p < q → q < length tds → headers !! (i + q) ≠ Some k) →
  i + length tds ≤ length headers →
  obj_get k (forEach_td headers tds i rowObj) = Some (trimmedText td).
Proof.
  revert i rowObj p. induction tds as [|td0 tds IH];
    intros i rowObj p Hk Htd Hp Hlast Hlen; [done|].
  simpl in *. destruct p as [|p]; simpl in *.
  - injection Htd as ->. rewrite Nat.add_0_r in Hk. rewrite Hk. simpl.
    rewrite forEach_td_get_other; [| | lia].
    + unfold row_set. rewrite bool_decide_eq_false_2 by done.
      apply obj_get_set_eq.
    + intros q Hq. replace (S i + q) with (i + S q) by lia.
      apply Hlast; lia.
  - apply (IH _ _ p); [| done | done | | lia].
    + by replace (S i + p) with (i + S p) by lia.
    + intros q Hpq Hq. replace (S i + q) with (i + S q) by lia.
      apply Hlast; lia.
Qed.

Lemma forEach_td_fields headers tds i rowObj k v :
  (k, v) ∈ forEach_td headers tds i rowObj →
  i + length tds ≤ length headers →
  (k, v) ∈ rowObj
  ∨ (k ∈ headers ∧ k ≠ lit "__proto__"
     ∧ ∃ td, td ∈ tds ∧ v = trimmedText td).
Proof.
  revert i rowObj. induction tds as [|td tds IH]; intros i rowObj Hin Hlen;
    simpl in *; [by left|].
  destruct (headers !! i) as [h|] eqn:Hi; [| apply lookup_ge_None in Hi; lia].
  simpl in Hin. apply IH in Hin as [Hin|(? & ? & td' & ? & ?)]; [| | lia].
  - unfold row_set in Hin. case_bool_decide as Hp; [by left|].
    apply obj_set_elem in Hin as [[-> ->]|?]; [|by left].
    right. split_and!; [by eapply list_elem_of_lookup_2 | done |].
    exists td. split; [apply list_elem_of_here | done].
  - right. split_and!; [done..|]. exists td'.
    split; [by apply list_elem_of_further | done].
Qed.

Lemma forEach_td_keys_NoDup headers tds i rowObj :
  NoDup (map fst rowObj) → NoDup (map fst (forEach_td headers tds i rowObj)).
Proof.
  revert i rowObj. induction tds as [|td tds IH]; intros i rowObj Hnd;
    simpl; [done|].
  apply IH. unfold row_set. case_bool_decide; [done|].
  by apply obj_keys_NoDup_set.
Qed.

Lemma forEach_td_length headers tds i rowObj :
  length (forEach_td headers tds i rowObj) ≤ length rowObj + length tds.
Proof.
  revert i rowObj. induction tds as [|td tds IH]; intros i rowObj; simpl;
    [lia|].
  etrans; [apply IH|]. unfold row_set. case_bool_decide; [lia|].
  assert (length (obj_set (default (lit "undefined") (headers !! i))
                    (trim (textContent (here td))) rowObj)
          ≤ S (length rowObj)); [|lia].
  rewrite <- (length_map fst (obj_set _ _ _)), obj_keys_set.
  destruct (obj_get _ rowObj); rewrite ?length_app, length_map; simpl; lia.
Qed.

Lemma parseSingleTable_filter_map tableNode :
  parseSingleTable tableNode
  = map (rowRecord tableNode)
      (filter (fun row => length (findAll (tagNamed "td") row)
                          = length (findAll (tagNamed "th") tableNode))
         (findAll (tagNamed "tr") tableNode)).
Proof.
  unfold parseSingleTable, rowRecord, headersOf. fold trimmedText.
  rewrite parseSingleTable_rows_app. simpl.
  induction (findAll (tagNamed "tr") tableNode) as [|row rows IH]; [done|].
  simpl. unfold parseSingleTable_row at 1. rewrite length_map.
  case_bool_decide.
  - rewrite filter_cons_True by done. simpl. by rewrite IH.
  - rewrite filter_cons_False by done. by rewrite IH.
Qed.

(** X1.  [parseSingleTable] returns exactly one record for each row
    element whose data cells are as many as the header cells of the
    table, in the order of the rows, and nothing for the other rows; so it
    never returns more records than the table has row elements. *)
Theorem parseSingleTable_one_record_per_aligned_row tableNode :
  parseSingleTable tableNode
  = map (rowRecord tableNode)
      (filter (fun row => length (findAll (tagNamed "td") row)
                          = length (findAll (tagNamed "th") tableNode))
         (findAll (tagNamed "tr") tableNode))
  ∧ length (parseSingleTable tableNode)
    ≤ length (findAll (tagNamed "tr") tableNode).
Proof.
  split; [apply parseSingleTable_filter_map|].
  rewrite parseSingleTable_filter_map, length_map. apply length_filter.
Qed.

(** X2.  Every field of every record [parseSingleTable] returns is keyed
    by the trimmed text of a header cell of the table, never by
    [__proto__], and holds the trimmed text of a data cell of the table;
    no record has two fields with one key, nor more fields than the table
    has header cells. *)
Theorem parseSingleTable_records_well_formed tableNode rowObj :
  rowObj ∈ parseSingleTable tableNode →
  NoDup (map fst rowObj)
  ∧ length rowObj ≤ length (findAll (tagNamed "th") tableNode)
  ∧ ∀ k v, (k, v) ∈ rowObj →
      k ∈ headersOf tableNode ∧ k ≠ lit "__proto__"
      ∧ ∃ row td, row ∈ findAll (tagNamed "tr") tableNode
                  ∧ td ∈ findAll (tagNamed "td") row
                  ∧ v = trimmedText td.
Proof.
  rewrite parseSingleTable_filter_map.
  intros (row & -> & [Hlen Hrow]%list_elem_of_filter)%list_elem_of_fmap.
  unfold rowRecord. split_and!.
  - apply forEach_td_keys_NoDup. constructor.
  - etrans; [apply forEach_td_length|]. simpl. lia.
  - intros k v Hin.
    apply forEach_td_fields in Hin as [[]%elem_of_nil|(? & ? & td & ? & ?)];
      [| unfold headersOf; rewrite length_map; simpl; lia].
    split_and!; [done..|]. by exists row, td.
Qed.

Lemma parseSingleTable_records_well_formed_witness :
  NoDup (map fst sampleRecord)
  ∧ length sampleRecord ≤ length (findAll (tagNamed "th") sampleTableRef).
Proof.
  destruct (parseSingleTable_records_well_formed sampleTableRef sampleRecord)
    as (H1 & H2 & _).
  - change (parseSingleTable sampleTableRef) with [sampleRecord].
    apply list_elem_of_here.
  - split; [exact H1 | exact H2].
Defined.

(** X3.  When several header cells of a table have the same trimmed text,
    the field of an aligned row holds the data cell of the last of these
    columns: for every header cell after which no header cell has the same
    text, the record maps that text (unless it is [__proto__]) to the
    trimmed text of the data cell at the same position. *)
Theorem duplicate_header_last_column_wins tableNode row i th td :
  row ∈ findAll (tagNamed "tr") tableNode →
  length (findAll (tagNamed "td") row)
  = length (findAll (tagNamed "th") tableNode) →
  findAll (tagNamed "th") tableNode !! i = Some th →
  findAll (tagNamed "td") row !! i = Some td →
  trimmedText th ≠ lit "__proto__" →
  (∀ j th', i < j → findAll (tagNamed "th") tableNode !! j = Some th' →
            trimmedText th' ≠ trimmedText th) →
  rowRecord tableNode row ∈ parseSingleTable tableNode
  ∧ obj_get (trimmedText th) (rowRecord tableNode row)
    = Some (trimmedText td).
Proof.
  intros Hrow Hlen Hth Htd Hp Hlast. split.
  - rewrite parseSingleTable_filter_map. apply list_elem_of_fmap.
    exists row. split; [done|]. by apply list_elem_of_filter.
  - unfold rowRecord. apply (forEach_td_get_last _ _ _ _ _ i).
    + unfold headersOf. simpl. by rewrite list_lookup_fmap, Hth.
    + done.
    + done.
    + intros q Hiq Hq. unfold headersOf. simpl.
      rewrite list_lookup_fmap.
      destruct (findAll (tagNamed "th") tableNode !! q) as [th'|] eqn:Hq';
        [|done].
      simpl. intros [= Heq]. by apply (Hlast q th').
    + unfold headersOf. rewrite length_map. simpl. lia.
Qed.

Lemma duplicate_header_last_column_wins_witness :
  obj_get (lit "A") (rowRecord duplicateHeaderTable duplicateHeaderRow)
  = Some (lit "2").
Proof.
  refine (proj2 (duplicate_header_last_column_wins duplicateHeaderTable
                   duplicateHeaderRow 1
                   {| up := [0; 2; 0]; index := 1; here := el "th" [tx "A"];
                      following := [] |}
                   {| up := [1; 2; 0]; index := 1; here := el "td" [tx "2"];
                      following := [] |} _ _ _ _ _ _)).
  - apply list_elem_of_lookup. exists 1. reflexivity.
  - reflexivity.
  - reflexivity.
  - reflexivity.
  - by_evaluation (trimmedText {| up := [0; 2; 0]; index := 1;
                                  here := el "th" [tx "A"]; following := [] |}
                   ≠ lit "__proto__").
  - intros [|[|j]] th' Hj Hth'; [lia | lia | discriminate Hth'].
Defined.

(** X4.  [parseSingleTable] reads nothing but the subtree of the table
    node: references to equal subtrees give the same records, wherever the
    tables lie in their documents and whatever follows them. *)
Theorem parseSingleTable_reads_only_the_subtree a b :
  here a = here b → parseSingleTable a = parseSingleTable b.
Proof. intros H. by apply parseSingleTable_sameHere. Qed.

Lemma parseSingleTable_reads_only_the_subtree_witness :
  parseSingleTable sampleTableRef = parseSingleTable (rootRef sampleTable).
Proof. apply parseSingleTable_reads_only_the_subtree. reflexivity. Defined.

(** ** The sections *)





Example duplicateH2_result :
  extract 5 duplicateH2Document
  = Done [ (lit "Call of Duty: Vanguard",
            [ (lit "PromoCodes", [ [ (lit "Code", lit "XYZ") ] ]) ]) ].
Proof. reflexivity. Qed.

(** ** The order of the top-level keys *)

Lemma firstOccurrences_filter_elem (keys l : list jsstring) x :
  x ∈ keys →
  filter (fun k => k ∉ keys) (filter (fun y => y ≠ x) l)
  = filter (fun k => k ∉ keys) l.
Proof.
  intros Hx. rewrite list_filter_filter. apply list_filter_iff.
  intros y. split; [by intros [? _]|]. intros Hy. split; [done|].
  by intros ->.
Qed.

Lemma firstOccurrences_filter_snoc (keys l : list jsstring) x :
  filter (fun k => k ∉ keys ++ [x]) l
  = filter (fun k => k ∉ keys) (filter (fun y => y ≠ x) l).
Proof.
  rewrite list_filter_filter. apply list_filter_iff.
  intros y. rewrite not_elem_of_app, list_elem_of_singleton. done.
Qed.

Lemma allSections_keys_order h1s parsed :
  map fst (allSections h1s parsed)
  = map fst parsed
    ++ filter (fun k => k ∉ map fst parsed)
         (firstOccurrences
            (filter (fun k => includes H1_WHITELIST k = true)
               (map trimmedText h1s))).
Proof.
  revert parsed. induction h1s as [|h h1s IH]; intros parsed; simpl.
  { by rewrite app_nil_r. }
  rewrite IH. fold (trimmedText h).
  destruct (includes H1_WHITELIST (trimmedText h)) eqn:Hwl.
  - rewrite filter_cons_True by done. simpl. rewrite obj_keys_set.
    destruct (obj_get (trimmedText h) parsed) eqn:Hget.
    + assert (trimmedText h ∈ map fst parsed).
      { apply dec_stable. intros Hn. apply obj_get_None in Hn. congruence. }
      rewrite filter_cons_False by (intros Hn; by apply Hn).
      by rewrite firstOccurrences_filter_elem.
    + apply obj_get_None in Hget.
      rewrite filter_cons_True by done.
      by rewrite firstOccurrences_filter_snoc, <- app_assoc.
  - by rewrite filter_cons_False by (by rewrite Hwl).
Qed.

(** X6.  The top-level keys of every returned mapping are the whitelisted
    trimmed texts of the top-level headings, each once, in the order in
    which the texts first occur in the document: a repeated heading text
    keeps the place of its first occurrence. *)
Theorem top_level_keys_in_first_occurrence_order bound root parsed :
  extract bound root = Done parsed →
  map fst parsed
  = firstOccurrences
      (filter (fun k => includes H1_WHITELIST k = true)
         (map trimmedText (h1Elements root))).
Proof.
  intros ->%extract_Done. rewrite allSections_keys_order. simpl.
  induction (firstOccurrences _) as [|k ks IH]; [done|].
  rewrite filter_cons_True by apply not_elem_of_nil. by rewrite IH.
Qed.

Lemma top_level_keys_in_first_occurrence_order_witness :
  map fst [ (lit "Call of Duty: Vanguard", @nil (jsstring * list record));
            (lit "Call of Duty: Warzone 2.0", []) ]
  = firstOccurrences
      (filter (fun k => includes H1_WHITELIST k = true)
         (map trimmedText (h1Elements interleavedDocument))).
Proof.
  apply (top_level_keys_in_first_occurrence_order 0 interleavedDocument).
  reflexivity.
Defined.

(** ** What the loops never do *)

(** X7.  [parseHtmlH1H2Tables] never throws on reading a property of
    [undefined]: whenever it assigns [parsed[h1Text][h2Text]], the object
    [parsed[h1Text]] exists, and the [for] loop never reads past the
    collected headings. *)
Theorem parseHtmlH1H2Tables_never_throws parseDocument bound html :
  parseHtmlH1H2Tables parseDocument bound html ≠ TypeError.
Proof.
  unfold parseHtmlH1H2Tables.
  destruct (extract_cases bound (parseDocument html)) as [->|[-> _]];
    discriminate.
Qed.

(** ** The boundary of a section *)

Lemma siblingsAt_drop p i l n :
  drop n (siblingsAt p i l) = siblingsAt p (i + n) (drop n l).
Proof.
  revert i n. induction l as [|x l IH]; intros i [|n]; simpl;
    rewrite ?Nat.add_0_r; try done.
  rewrite IH. f_equal. lia.
Qed.

(** The next siblings of the [j]-th next sibling are the later ones. *)
Lemma nextSiblings_of_sibling r j s :
  nextSiblings r !! j = Some s →
  nextSiblings s = drop (S j) (nextSiblings r).
Proof.
  unfold nextSiblings. intros (Hup & Hidx & _ & Hfol)%siblingsAt_lookup.
  rewrite siblingsAt_drop, Hup, Hidx, Hfol. f_equal. lia.
Qed.

(** The section ends where the next heading lies among the siblings. *)
Lemma sectionSiblings_sibling_boundary r1 r2 k :
  nextSiblings r1 !! k = Some r2 →
  sectionSiblings r1 (Some r2) = take k (nextSiblings r1).
Proof.
  intros Hk. unfold sectionSiblings.
  pose proof Hk as (Hup & Hidx & _)%siblingsAt_lookup.
  unfold nextSiblings. rewrite (untilBoundary_take _ _ _ r2) by (done || lia).
  f_equal. lia.
Qed.

Lemma h1Elements_elem root r :
  r ∈ h1Elements root → tagNamed "h1" (here r) = true.
Proof.
  unfold h1Elements, findAll. intros Hr.
  assert (Hin : r ∈ findAll_forest (tagNamed "h1") [] 0 [root]).
  { simpl. by rewrite app_nil_r. }
  by apply findAll_forest_elem in Hin as [[_ ?]%andb_true_iff _].
Qed.

Lemma table_is_no_heading n :
  tagNamed "table" n = true → tagNamed "h1" n = true → False.
Proof.
  unfold tagNamed. intros [_ Ht]%andb_true_iff [_ Hh]%andb_true_iff.
  apply bool_decide_eq_true_1 in Ht, Hh. by rewrite Ht in Hh.
Qed.

(** X8.  A top-level heading whose text is not whitelisted still ends the
    section of the heading before it.  In any document, when a whitelisted
    heading is followed, as the next collected heading and among its
    siblings, by a heading that is not whitelisted, the iteration for the
    first stores the sub-map built from the siblings strictly between the
    two headings alone: each of its keys comes from an accepted sub-level
    heading there and holds the table found after it, which also lies
    before the skipped heading; the iteration for the skipped heading
    changes nothing, so the content under it is dropped, not added to the
    section before it.  When no later heading has the text of the first,
    this sub-map is the one of the result. *)
Theorem skipped_heading_ends_the_section bound root i r1 r2 k :
  enoughFuel bound root →
  h1Elements root !! i = Some r1 →
  h1Elements root !! (i + 1) = Some r2 →
  nextSiblings r1 !! k = Some r2 →
  includes H1_WHITELIST (trimmedText r1) = true →
  includes H1_WHITELIST (trimmedText r2) = false →
  (∀ parsed0,
     parseHtmlH1H2Tables_h1 bound (h1Elements root) i parsed0
     = Done (obj_set (trimmedText r1)
               (sectionTables (take k (nextSiblings r1)) []) parsed0))
  ∧ (∀ parsed0,
       parseHtmlH1H2Tables_h1 bound (h1Elements root) (i + 1) parsed0
       = Done parsed0)
  ∧ (∀ k2 v,
       obj_get k2 (sectionTables (take k (nextSiblings r1)) []) = Some v →
       ∃ j m sib t,
         j < m < k
         ∧ nextSiblings r1 !! j = Some sib
         ∧ nextSiblings r1 !! m = Some t
         ∧ acceptedH2 sib = true
         ∧ trimmedText sib = k2
         ∧ firstTableAfter sib t
         ∧ v = parseSingleTable t)
  ∧ ((∀ j h, i < j → h1Elements root !! j = Some h →
             trimmedText h ≠ trimmedText r1) →
     ∃ parsed,
       extract bound root = Done parsed
       ∧ obj_get (trimmedText r1) parsed
         = Some (sectionTables (take k (nextSiblings r1)) [])).
Proof.
  intros Hfuel Hi Hi' Hk Hw1 Hw2.
  pose proof (sectionSiblings_sibling_boundary _ _ _ Hk) as Hsec.
  assert (Hh1 : tagNamed "h1" (here r2) = true).
  { apply (h1Elements_elem root). by eapply list_elem_of_lookup_2. }
  split_and!.
  - intros parsed0.
    destruct (h1_iteration_cases bound _ i r1 parsed0 Hi) as [->|[_ Hlt]].
    + simpl. fold (trimmedText r1). by rewrite Hw1, Hi', Hsec.
    + eapply (proj1 (Forall_lookup _ _)) in Hfuel; [|exact Hi].
      simpl in Hfuel. lia.
  - intros parsed0.
    destruct (h1_iteration_cases bound _ (i + 1) r2 parsed0 Hi')
      as [->|[_ Hlt]].
    + simpl. fold (trimmedText r2). by rewrite Hw2.
    + eapply (proj1 (Forall_lookup _ _)) in Hfuel; [|exact Hi'].
      simpl in Hfuel. lia.
  - intros k2 v Hv.
    apply sectionTables_get_inv in Hv
      as [?|(s & t & Hin & Hacc & Hk2 & Ht & ->)]; [done|].
    apply list_elem_of_lookup in Hin as [j Hj].
    apply lookup_take_Some in Hj as [Hj Hjk].
    apply firstTable_Some in Ht. pose proof Ht as (m & Hm & Htab & Hbefore).
    rewrite (nextSiblings_of_sibling _ _ _ Hj) in Hm, Hbefore.
    rewrite lookup_drop in Hm.
    exists j, (S j + m), s, t. split_and!; try done; [lia|].
    destruct (decide (S j + m < k)) as [|Hge]; [done|]. exfalso.
    destruct (decide (S j + m = k)) as [Heq|Hne].
    + rewrite Heq, Hk in Hm. injection Hm as <-.
      by eapply table_is_no_heading.
    + specialize (Hbefore (k - S j) r2 ltac:(lia)).
      rewrite lookup_drop in Hbefore.
      replace (S j + (k - S j)) with k in Hbefore by lia.
      specialize (Hbefore Hk). unfold stopsScan in Hbefore.
      rewrite Hh1 in Hbefore. by rewrite orb_true_r in Hbefore.
  - intros Hlast. eexists. split; [by apply extract_allSections|].
    rewrite (allSections_get_last _ _ i r1); [by rewrite Hi', Hsec|].
    by split_and!.
Qed.

Lemma skipped_heading_ends_the_section_witness :
  (∀ parsed0,
     parseHtmlH1H2Tables_h1 5 (h1Elements skippedH1Document) 0 parsed0
     = Done (obj_set (trimmedText skippedH1_h1)
               (sectionTables (take 2 (nextSiblings skippedH1_h1)) [])
               parsed0))
  ∧ (∀ parsed0,
       parseHtmlH1H2Tables_h1 5 (h1Elements skippedH1Document) (0 + 1)
         parsed0
       = Done parsed0)
  ∧ (∀ k2 v,
       obj_get k2 (sectionTables (take 2 (nextSiblings skippedH1_h1)) [])
       = Some v →
       ∃ j m sib t,
         j < m < 2
         ∧ nextSiblings skippedH1_h1 !! j = Some sib
         ∧ nextSiblings skippedH1_h1 !! m = Some t
         ∧ acceptedH2 sib = true
         ∧ trimmedText sib = k2
         ∧ firstTableAfter sib t
         ∧ v = parseSingleTable t)
  ∧ ((∀ j h, 0 < j → h1Elements skippedH1Document !! j = Some h →
             trimmedText h ≠ trimmedText skippedH1_h1) →
     ∃ parsed,
       extract 5 skippedH1Document = Done parsed
       ∧ obj_get (trimmedText skippedH1_h1) parsed
         = Some (sectionTables (take 2 (nextSiblings skippedH1_h1)) [])).
Proof.
  apply (skipped_heading_ends_the_section 5 skippedH1Document 0 skippedH1_h1
           skippedH1_nextH1 2).
  - by_evaluation (Forall (fun h1Node => length (following h1Node) ≤ 5)
                     (h1Elements skippedH1Document)).
  - reflexivity.
  - reflexivity.
  - reflexivity.
  - reflexivity.
  - reflexivity.
Defined.

Example skippedH1_result :
  extract 5 skippedH1Document
  = Done [ (lit "Call of Duty: Vanguard",
            [ (lit "PromoCodes", [sampleRecord]) ]) ].
Proof. reflexivity. Qed.




(** The table after the nested heading is stored under the first key. *)
Example nestedH1_result :
  extract 3 nestedH1Document
  = Done [ (lit "Call of Duty: Vanguard",
            [ (lit "PromoCodes", [sampleRecord]) ]);
           (lit "Call of Duty: Warzone 2.0", []) ].
Proof. reflexivity. Qed.

(** ** White space around a heading text *)

Lemma trimStart_length s : length (trimStart s) ≤ length s.
Proof.
  induction s as [|c s IH]; simpl; [done|].
  destruct (isWhiteSpace c); simpl; lia.
Qed.

Lemma trimStart_padding pre s :
  allWhiteSpace pre → trimStart (pre ++ s) = trimStart s.
Proof.
  induction 1 as [|c pre Hc _ IH]; simpl; [done|]. by rewrite Hc.
Qed.

Lemma trimStart_fixed_app s post :
  trimStart s = s → s ≠ [] → trimStart (s ++ post) = s ++ post.
Proof.
  destruct s as [|c s]; [done|]. simpl. intros H _.
  destruct (isWhiteSpace c); [|done].
  pose proof (trimStart_length s) as Hl. rewrite H in Hl. simpl in Hl. lia.
Qed.

Lemma trim_fixed s :
  trim s = s → trimStart s = s ∧ trimStart (rev s) = rev s.
Proof.
  unfold trim, trimEnd. intros H.
  assert (Hl : length (trimStart (rev (trimStart s))) = length s).
  { rewrite <- H at 2. by rewrite length_rev. }
  pose proof (trimStart_length (rev (trimStart s))) as H1.
  pose proof (trimStart_length s) as H2. rewrite length_rev in H1.
  assert (Hs : trimStart s = s).
  { assert (Hge : length s ≤ length (trimStart s)) by lia.
    clear H Hl H1 H2. destruct s as [|c s]; simpl in *; [done|].
    destruct (isWhiteSpace c); [|done].
    pose proof (trimStart_length s). lia. }
  split; [done|]. rewrite Hs in H.
  rewrite <- H at 2. by rewrite rev_involutive.
Qed.

Lemma trim_padding pre s post :
  allWhiteSpace pre → allWhiteSpace post →
  trim s = s → s ≠ [] →
  trim (pre ++ s ++ post) = s.
Proof.
  intros Hpre Hpost [Hs Hr]%trim_fixed Hne. unfold trim, trimEnd.
  rewrite trimStart_padding, trimStart_fixed_app by done.
  rewrite rev_app_distr, trimStart_padding.
  - by rewrite Hr, rev_involutive.
  - by apply List.Forall_rev.
Qed.

Lemma whitelists_trimmed :
  Forall (fun w => trim w = w ∧ w ≠ []) (H1_WHITELIST ++ H2_WHITELIST).
Proof.
  by_evaluation (Forall (fun w => trim w = w ∧ w ≠ [])
                   (H1_WHITELIST ++ H2_WHITELIST)).
Qed.

Lemma allSections_key_present h1s parsed h :
  h ∈ h1s →
  includes H1_WHITELIST (trimmedText h) = true →
  is_Some (obj_get (trimmedText h) (allSections h1s parsed)).
Proof.
  intros Hin Hwl.
  destruct (allSections_last_or_none h1s (trimmedText h))
    as [(i & h1Node & Hlast)|Hno].
  - by rewrite (allSections_get_last _ _ _ _ _ Hlast).
  - by rewrite (Hno h Hin eq_refl) in Hwl.
Qed.

(** X10.  A heading is recognised whatever white space surrounds its
    text, and whatever markup lies inside the heading.  In any document,
    an [h1] element whose text content is a top-level whitelist entry
    between white space yields the entry itself as a key of the result;
    an [h2] element whose text content is a sub-level whitelist entry
    between white space is accepted with the entry as its trimmed text,
    and when it lies in the section of the last heading with some text and
    a table follows it, the entry is a key under that text. *)
Theorem headings_match_up_to_surrounding_white_space bound root w pre post :
  allWhiteSpace pre → allWhiteSpace post →
  enoughFuel bound root →
  (w ∈ H1_WHITELIST →
   ∀ h, h ∈ h1Elements root →
        textContent (here h) = pre ++ w ++ post →
        ∃ parsed,
          extract bound root = Done parsed ∧ is_Some (obj_get w parsed))
  ∧ (w ∈ H2_WHITELIST →
     ∀ sib, tagNamed "h2" (here sib) = true →
            textContent (here sib) = pre ++ w ++ post →
            acceptedH2 sib = true
            ∧ trimmedText sib = w
            ∧ ∀ i h1Node k1 t,
                lastWithText (h1Elements root) i h1Node k1 →
                sib ∈ sectionSiblings h1Node (h1Elements root !! (i + 1)) →
                firstTableAfter sib t →
                ∃ parsed sub,
                  extract bound root = Done parsed
                  ∧ obj_get k1 parsed = Some sub
                  ∧ is_Some (obj_get w sub)).
Proof.
  intros Hpre Hpost Hfuel.
  assert (Htrim : w ∈ H1_WHITELIST ++ H2_WHITELIST →
                  trim (pre ++ w ++ post) = w).
  { intros Hw.
    pose proof (proj1 (Forall_forall _ _) whitelists_trimmed w Hw) as [? ?].
    by apply trim_padding. }
  split.
  - intros Hw h Hh Htext.
    assert (Hk : trimmedText h = w).
    { unfold trimmedText. rewrite Htext. apply Htrim, elem_of_app. by left. }
    eexists. split; [by apply extract_allSections|].
    rewrite <- Hk. apply allSections_key_present; [done|].
    rewrite Hk. by apply includes_elem.
  - intros Hw sib Htag Htext.
    assert (Hk : trimmedText sib = w).
    { unfold trimmedText. rewrite Htext. apply Htrim, elem_of_app. by right. }
    assert (Hacc : acceptedH2 sib = true).
    { unfold acceptedH2. fold (trimmedText sib). rewrite Hk, Htag.
      by apply includes_elem. }
    split_and!; [done..|].
    intros i h1Node k1 t Hlast Hin Ht.
    eexists _, _. split_and!.
    + by apply extract_allSections.
    + by apply allSections_get_last.
    + apply sectionTables_present. right. exists sib, t.
      split_and!; [done..|]. by apply firstTable_Some.
Qed.

Lemma headings_match_up_to_surrounding_white_space_witness :
  ∃ parsed,
    extract 5 paddedDocument = Done parsed
    ∧ is_Some (obj_get (lit "Call of Duty: Vanguard") parsed).
Proof.
  refine (proj1 (headings_match_up_to_surrounding_white_space 5
                   paddedDocument (lit "Call of Duty: Vanguard")
                   [10; 32]%N [32; 10]%N _ _ _)
            _ paddedH1 _ _).
  - by_evaluation (allWhiteSpace [10; 32]%N).
  - by_evaluation (allWhiteSpace [32; 10]%N).
  - by_evaluation (Forall (fun h1Node => length (following h1Node) ≤ 5)
                     (h1Elements paddedDocument)).
  - by_evaluation (lit "Call of Duty: Vanguard" ∈ H1_WHITELIST).
  - apply list_elem_of_lookup. exists 0. reflexivity.
  - reflexivity.
Defined.

Example padded_result :
  extract 5 paddedDocument
  = Done [ (lit "Call of Duty: Vanguard",
            [ (lit "PromoCodes", [sampleRecord]) ]) ].
Proof. reflexivity. Qed.

(** ** The key mappings *)

Lemma obj_get_codes_distinct (m : obj jsstring) k k' c :
  NoDup (map snd m) →
  obj_get k m = Some c → obj_get k' m = Some c → k = k'.
Proof.
  intros Hnd [j Hj]%obj_get_Some_elem%list_elem_of_lookup
             [j' Hj']%obj_get_Some_elem%list_elem_of_lookup.
  assert (j = j'); [|congruence].
  eapply NoDup_lookup; [exact Hnd | |].
  - by rewrite list_lookup_fmap, Hj.
  - by rewrite list_lookup_fmap, Hj'.
Qed.

(** X11.  Every key of every returned mapping has a short code in the key
    mappings, and different keys have different codes: replacing the
    heading texts of a result by their codes loses no key and merges no
    two keys. *)
Theorem result_keys_have_distinct_codes bound root parsed :
  extract bound root = Done parsed →
  (∀ k1 sub, (k1, sub) ∈ parsed →
     is_Some (obj_get k1 H1_KEY_MAPPING)
     ∧ ∀ k2 v, (k2, v) ∈ sub → is_Some (obj_get k2 H2_KEY_MAPPING))
  ∧ (∀ k k' c, obj_get k H1_KEY_MAPPING = Some c →
       obj_get k' H1_KEY_MAPPING = Some c → k = k')
  ∧ (∀ k k' c, obj_get k H2_KEY_MAPPING = Some c →
       obj_get k' H2_KEY_MAPPING = Some c → k = k').
Proof.
  intros ->%extract_Done. split_and!.
  - assert (H1 : Forall (fun w => is_Some (obj_get w H1_KEY_MAPPING))
                   H1_WHITELIST).
    { by_evaluation (Forall (fun w => is_Some (obj_get w H1_KEY_MAPPING))
                       H1_WHITELIST). }
    assert (H2 : Forall (fun w => is_Some (obj_get w H2_KEY_MAPPING))
                   H2_WHITELIST).
    { by_evaluation (Forall (fun w => is_Some (obj_get w H2_KEY_MAPPING))
                       H2_WHITELIST). }
    intros k1 sub [[]%elem_of_nil|[Hk1 Hsub]]%allSections_keys.
    split; [by apply (proj1 (Forall_forall _ _) H1)|].
    intros k2 v Hk2. apply (proj1 (Forall_forall _ _) H2). by eapply Hsub.
  - intros k k' c. apply obj_get_codes_distinct.
    by_evaluation (NoDup (map snd H1_KEY_MAPPING)).
  - intros k k' c. apply obj_get_codes_distinct.
    by_evaluation (NoDup (map snd H2_KEY_MAPPING)).
Qed.

Lemma result_keys_have_distinct_codes_witness :
  is_Some (obj_get (lit "Call of Duty: Vanguard") H1_KEY_MAPPING).
Proof.
  refine (proj1 (proj1 (result_keys_have_distinct_codes 2 scenarioA _ eq_refl)
                   (lit "Call of Duty: Vanguard")
                   [ (lit "PromoCodes", [sampleRecord]) ] _)).
  apply list_elem_of_here.
Defined.

(** * Properties of the Worker (index.ts, upload.ts) *)

Lemma falsy_false value :
  falsy value = false ↔ ∃ s, value = Some s ∧ s ≠ [].
Proof.
  destruct value as [[|c s]|]; simpl; split; try done.
  - intros (s & [= <-] & Hs). done.
  - intros _. by eexists.
  - intros (s & ? & _). done.
Qed.

Lemma authorized_iff w request :
  falsy (header_x_api_key request)
  || strictNotEqual (header_x_api_key request) (env_API_KEY w) = false
  ↔ authorized w request.
Proof.
  unfold authorized. rewrite orb_false_iff, falsy_false. split.
  - intros [(key & Hk & Hne) Heq]. exists key. split_and!; [done..|].
    rewrite Hk in Heq. destruct (env_API_KEY w) as [key'|]; [|done].
    simpl in Heq. apply negb_false_iff, bool_decide_eq_true_1 in Heq.
    by subst.
  - intros (key & Hne & Hk & Hw). split; [by exists key|].
    rewrite Hk, Hw. simpl. by rewrite bool_decide_eq_true_2.
Qed.

Section WorkerProperties.
Variable parseDocument : jsstring -> node.
Variable typeErrorMessage : jsstring.

Lemma fetch_handler_inv bound w request response calls :
  fetch_handler parseDocument typeErrorMessage bound w request
  = Done (response, calls) →
  (¬ authorized w request ∧ status response = 401 ∧ calls = [])
  ∨ (authorized w request ∧ status response = 400 ∧ calls = []
     ∧ (falsy (param_file request) = true
        ∨ falsy (param_userId request) = true))
  ∨ (authorized w request
     ∧ ∃ fileUrl userId,
         param_file request = Some fileUrl ∧ fileUrl ≠ []
         ∧ param_userId request = Some userId ∧ userId ≠ []
         ∧ fetch_try parseDocument typeErrorMessage bound w fileUrl userId
         = Done (response, calls)).
Proof.
  unfold fetch_handler.
  destruct (falsy (header_x_api_key request) || _) eqn:Hauth.
  { intros [= <- <-]. left. split_and!; [|done..].
    intros Ha%authorized_iff. congruence. }
  apply authorized_iff in Hauth.
  destruct (falsy (param_file request)) eqn:Hfile.
  { intros [= <- <-]. right. left. split_and!; [done..|]. by left. }
  destruct (falsy (param_userId request)) eqn:Huser.
  { intros [= <- <-]. right. left. split_and!; [done..|]. by right. }
  apply falsy_false in Hfile as (fileUrl & Hf & ?).
  apply falsy_false in Huser as (userId & Hu & ?).
  rewrite Hf, Hu. simpl. intros Htry. right. right.
  split; [done|]. by exists fileUrl, userId.
Qed.

Lemma fetch_try_inv bound w fileUrl userId response calls :
  fetch_try parseDocument typeErrorMessage bound w fileUrl userId
  = Done (response, calls) →
  (calls = [CallFetch fileUrl]
   ∧ ∃ message,
       response = errorResponse message
       ∧ (global_fetch w fileUrl = FetchRejected message
          ∨ (∃ statusText text,
               global_fetch w fileUrl = FetchResponse false statusText text
               ∧ message = lit "Failed to fetch file: " ++ statusText)
          ∨ (∃ statusText,
               global_fetch w fileUrl
               = FetchResponse true statusText (inr message))))
  ∨ (∃ statusText htmlContent jsonResult,
       global_fetch w fileUrl
       = FetchResponse true statusText (inl htmlContent)
       ∧ parseHtmlH1H2Tables parseDocument bound htmlContent = Done jsonResult
       ∧ calls = [ CallFetch fileUrl;
                   CallPut (objectKeyOf (Date_now w) userId)
                     (JSON_stringify_2 (jsonOfParsedData jsonResult)) ]
       ∧ ((∃ message,
             env_MY_BUCKET_put w (objectKeyOf (Date_now w) userId)
               (JSON_stringify_2 (jsonOfParsedData jsonResult))
             = Some message
             ∧ response = errorResponse message)
          ∨ (env_MY_BUCKET_put w (objectKeyOf (Date_now w) userId)
               (JSON_stringify_2 (jsonOfParsedData jsonResult)) = None
             ∧ response
               = {| status := 200;
                    body :=
                      JSON_stringify
                        (JObject
                           [ (lit "url",
                              JString
                                (lit "https://cdn.cod-stats.jconet.ltd/"
                                 ++ objectKeyOf (Date_now w) userId)) ]);
                    headers := [ (lit "Content-Type",
                                  lit "application/json") ] |}))).
Proof.
  unfold fetch_try.
  destruct (global_fetch w fileUrl) as [message|ok statusText text] eqn:Hf.
  { intros [= <- <-]. left. split; [done|]. exists message. auto. }
  destruct ok; simpl.
  2:{ intros [= <- <-]. left. split; [done|]. eexists. split; [done|].
      right. left. by eexists _, _. }
  destruct text as [htmlContent|message].
  2:{ intros [= <- <-]. left. split; [done|]. exists message.
      split; [done|]. right. right. by eexists. }
  destruct (parseHtmlH1H2Tables parseDocument bound htmlContent)
    as [jsonResult| |] eqn:Hparse; [| | done].
  2:{ exfalso. unfold parseHtmlH1H2Tables in Hparse.
      by destruct (extract_cases bound (parseDocument htmlContent))
        as [H|[H _]]; rewrite H in Hparse. }
  unfold uploadParsedFile.
  destruct (env_MY_BUCKET_put w _ _) as [message|] eqn:Hput;
    intros [= <- <-]; right; exists statusText, htmlContent, jsonResult;
    split_and!; try done.
  - left. by exists message.
  - by right.
Qed.

(** X12.  A request is refused with status 401 exactly when it is not
    authorised, that is, when its [x-api-key] header is missing, empty or
    different from the configured key (or no key is configured); a refused
    request makes no call to the outside: nothing is fetched and nothing
    is stored. *)
Theorem unauthorized_requests_are_refused bound w request :
  (¬ authorized w request →
   fetch_handler parseDocument typeErrorMessage bound w request
   = Done ({| status := 401;
              body := lit "Unauthorized: Invalid or missing Api Key (x-api-key)";
              headers := [] |}, []))
  ∧ (authorized w request →
     ∀ response calls,
       fetch_handler parseDocument typeErrorMessage bound w request
       = Done (response, calls) →
       status response ≠ 401).
Proof.
  split.
  - intros Hna. unfold fetch_handler.
    destruct (falsy _ || _) eqn:Hauth; [done|].
    by apply authorized_iff in Hauth.
  - intros Ha response calls
      [(? & _)|[(_ & -> & _)|(_ & f & u & _ & _ & _ & _ & Htry)]]%fetch_handler_inv;
      [done | done |].
    apply fetch_try_inv in Htry
      as [(_ & m & -> & _)|(? & ? & ? & _ & _ & _ & [(m & _ & ->)|(_ & ->)])];
      done.
Qed.

(** X13.  Whatever the handler fetches is the [file] parameter of an
    authorised request that names a non-empty file and a non-empty
    userId; it fetches at most once, stores at most once, and stores only
    after fetching. *)
Theorem fetch_only_for_valid_requests bound w request response calls :
  fetch_handler parseDocument typeErrorMessage bound w request
  = Done (response, calls) →
  (∀ url, CallFetch url ∈ calls →
     authorized w request
     ∧ param_file request = Some url ∧ url ≠ []
     ∧ ∃ userId, param_userId request = Some userId ∧ userId ≠ [])
  ∧ (calls = []
     ∨ (∃ fileUrl, calls = [CallFetch fileUrl])
     ∨ (∃ fileUrl key value, calls = [CallFetch fileUrl; CallPut key value])).
Proof.
  intros [(_ & _ & ->)|[(_ & _ & -> & _)|(Ha & f & u & Hf & ? & Hu & ? & Htry)]]%fetch_handler_inv.
  - split; [by intros url ?%elem_of_nil | by left].
  - split; [by intros url ?%elem_of_nil | by left].
  - assert (Hcalls : calls = [CallFetch f]
                     ∨ ∃ key value, calls = [CallFetch f; CallPut key value]).
    { apply fetch_try_inv in Htry
        as [(-> & _)|(? & ? & ? & _ & _ & -> & _)]; [left | right]; eauto. }
    split.
    + intros url Hin.
      assert (url = f) as ->.
      { destruct Hcalls as [->|(? & ? & ->)];
          repeat (apply elem_of_cons in Hin as [Hin|Hin]; [congruence|]);
          by apply elem_of_nil in Hin. }
      split_and!; [done..|]. by exists u.
    + destruct Hcalls as [->|(? & ? & ->)]; [right; left | right; right];
        eauto.
Qed.

(** X14.  An authorised request without a [file] parameter (missing or
    empty) is answered with status 400 and [Missing file parameter]; one
    with a file but without a [userId] with status 400 and
    [Missing userId parameter]; in both cases without any call to the
    outside.  An authorised request is answered with status 400 in these
    cases only. *)
Theorem missing_parameters_are_rejected bound w request :
  authorized w request →
  (falsy (param_file request) = true →
   fetch_handler parseDocument typeErrorMessage bound w request
   = Done ({| status := 400; body := lit "Missing file parameter";
              headers := [] |}, []))
  ∧ (falsy (param_file request) = false →
     falsy (param_userId request) = true →
     fetch_handler parseDocument typeErrorMessage bound w request
     = Done ({| status := 400; body := lit "Missing userId parameter";
                headers := [] |}, []))
  ∧ (∀ response calls,
       fetch_handler parseDocument typeErrorMessage bound w request
       = Done (response, calls) →
       status response = 400 →
       falsy (param_file request) = true
       ∨ falsy (param_userId request) = true).
Proof.
  intros Ha. split_and!.
  - apply authorized_iff in Ha. unfold fetch_handler. rewrite Ha.
    by intros ->.
  - apply authorized_iff in Ha. unfold fetch_handler. rewrite Ha.
    by intros -> ->.
  - intros response calls
      [(? & _)|[(_ & _ & _ & H)|(_ & f & u & _ & _ & _ & _ & Htry)]]%fetch_handler_inv;
      [done | done |].
    apply fetch_try_inv in Htry
      as [(_ & m & -> & _)
         |(? & ? & ? & _ & _ & _ & [(m & _ & ->)|(_ & ->)])];
      done.
Qed.

(** X15.  Whatever the handler stores in the bucket is the serialisation,
    with an indentation of two spaces, of the mapping
    [parseHtmlH1H2Tables] returns for the text of the fetched file, which
    was fetched with an ok response; it is stored under the key made of
    the time, the userId and [data]. *)
Theorem stored_object_is_the_parsed_file bound w request response calls
    key value :
  fetch_handler parseDocument typeErrorMessage bound w request
  = Done (response, calls) →
  CallPut key value ∈ calls →
  ∃ fileUrl userId statusText htmlContent jsonResult,
    param_file request = Some fileUrl
    ∧ param_userId request = Some userId
    ∧ global_fetch w fileUrl = FetchResponse true statusText (inl htmlContent)
    ∧ parseHtmlH1H2Tables parseDocument bound htmlContent = Done jsonResult
    ∧ key = numberToString (Date_now w) ++ lit "-" ++ userId ++ lit "-data"
    ∧ value = JSON_stringify_2 (jsonOfParsedData jsonResult)
    ∧ calls = [CallFetch fileUrl; CallPut key value].
Proof.
  intros [(_ & _ & ->)|[(_ & _ & -> & _)|(Ha & f & u & Hf & ? & Hu & ? & Htry)]]%fetch_handler_inv
    Hin; try by apply elem_of_nil in Hin.
  apply fetch_try_inv in Htry
    as [(-> & _)|(st & html & jsonResult & Hfetch & Hparse & -> & _)].
  - apply elem_of_cons in Hin as [?|Hin]; [done | by apply elem_of_nil in Hin].
  - apply elem_of_cons in Hin as [?|Hin]; [done|].
    apply list_elem_of_singleton in Hin as [= -> ->].
    by exists f, u, st, html, jsonResult.
Qed.

(** X16.  The handler answers with status 200 exactly when it has stored
    the object and the [put] succeeded: a response with another status
    means that nothing was stored or that the [put] failed, and a stored
    object whose [put] succeeded is always answered with 200.  The body is
    then the JSON object whose [url] is the CDN address of the very key
    the object was stored under, sent as [application/json].  So an
    authorised, complete request whose file is fetched with an ok
    response and whose object the bucket accepts is answered with 200. *)
Theorem success_names_the_stored_object bound w request response calls :
  fetch_handler parseDocument typeErrorMessage bound w request
  = Done (response, calls) →
  (status response = 200 ↔
   ∃ fileUrl key value,
     calls = [CallFetch fileUrl; CallPut key value]
     ∧ env_MY_BUCKET_put w key value = None)
  ∧ (∀ fileUrl key value,
       calls = [CallFetch fileUrl; CallPut key value] →
       env_MY_BUCKET_put w key value = None →
       response
       = {| status := 200;
            body :=
              JSON_stringify
                (JObject
                   [ (lit "url",
                      JString
                        (lit "https://cdn.cod-stats.jconet.ltd/" ++ key)) ]);
            headers := [ (lit "Content-Type", lit "application/json") ] |})
  ∧ ∀ fileUrl userId statusText htmlContent jsonResult,
      authorized w request →
      param_file request = Some fileUrl → fileUrl ≠ [] →
      param_userId request = Some userId → userId ≠ [] →
      global_fetch w fileUrl
      = FetchResponse true statusText (inl htmlContent) →
      parseHtmlH1H2Tables parseDocument bound htmlContent
      = Done jsonResult →
      env_MY_BUCKET_put w
        (numberToString (Date_now w) ++ lit "-" ++ userId ++ lit "-data")
        (JSON_stringify_2 (jsonOfParsedData jsonResult)) = None →
      status response = 200.
Proof.
  intros H.
  match goal with |- ?A ∧ ?B ∧ ?C => cut (C ∧ A ∧ B); [tauto|] end.
  split.
  { intros fileUrl userId statusText htmlContent jsonResult
      Ha%authorized_iff Hf Hfne Hu Hune Hfetch Hparse Hput.
    unfold fetch_handler in H. rewrite Ha, Hf, Hu in H.
    destruct fileUrl as [|c fileUrl]; [done|].
    destruct userId as [|d userId]; [done|]. simpl in H.
    unfold fetch_try, uploadParsedFile in H.
    rewrite Hfetch in H. simpl in H. rewrite Hparse in H.
    unfold objectKeyOf in H. rewrite Hput in H. by injection H as <- _. }
  apply fetch_handler_inv in H
    as [(_ & Hst & ->)|[(_ & Hst & -> & _)|(_ & f & u & _ & _ & _ & _ & Htry)]].
  - split; [split|]; [by rewrite Hst | by intros (? & ? & ? & ? & _) | done].
  - split; [split|]; [by rewrite Hst | by intros (? & ? & ? & ? & _) | done].
  - apply fetch_try_inv in Htry
      as [(-> & m & -> & _)
         |(? & ? & ? & _ & _ & -> & [(m & Hput & ->)|(Hput & ->)])].
    + split; [split|]; [done | by intros (? & ? & ? & ? & _) | done].
    + split; [split|].
      * done.
      * intros (? & ? & ? & [= <- <- <-] & Hnone). congruence.
      * intros ? ? ? [= <- <- <-] Hnone. congruence.
    + split; [split|].
      * intros _. by eexists _, _, _.
      * done.
      * by intros ? ? ? [= <- <- <-] _.
Qed.

(** X17.  When the file cannot be read (the fetch rejects, the response
    is not ok, or reading its text rejects) the handler answers an
    authorised, complete request with status 500 and [Error: ] followed by
    the message, which for a response that is not ok is
    [Failed to fetch file: ] followed by its status text; it has fetched
    the file and stored nothing. *)
Theorem unreadable_file_gives_500 bound w request fileUrl userId message :
  authorized w request →
  param_file request = Some fileUrl → fileUrl ≠ [] →
  param_userId request = Some userId → userId ≠ [] →
  (global_fetch w fileUrl = FetchRejected message
   ∨ (∃ statusText text,
        global_fetch w fileUrl = FetchResponse false statusText text
        ∧ message = lit "Failed to fetch file: " ++ statusText)
   ∨ (∃ statusText,
        global_fetch w fileUrl = FetchResponse true statusText (inr message))) →
  fetch_handler parseDocument typeErrorMessage bound w request
  = Done ({| status := 500; body := lit "Error: " ++ message; headers := [] |},
          [CallFetch fileUrl]).
Proof.
  intros Ha%authorized_iff Hf Hfne Hu Hune Hfetch.
  unfold fetch_handler. rewrite Ha, Hf, Hu.
  destruct fileUrl as [|c fileUrl]; [done|].
  destruct userId as [|d userId]; [done|]. simpl.
  unfold fetch_try.
  destruct Hfetch as [->|[(st & text & -> & ->)|(st & ->)]]; done.
Qed.

(** X18.  The handler never fails with an uncaught [TypeError], and from
    some bound on the iterations of the loops of [parseHtmlH1H2Tables] on
    it returns a response, whose status is 200, 400, 401 or 500. *)
Theorem handler_always_answers w request :
  (∀ bound, fetch_handler parseDocument typeErrorMessage bound w request
  ≠ TypeError)
  ∧ ∃ bound0, ∀ bound, bound0 ≤ bound →
      ∃ response calls,
        fetch_handler parseDocument typeErrorMessage bound w request
        = Done (response, calls)
        ∧ (status response = 200 ∨ status response = 400
           ∨ status response = 401 ∨ status response = 500).
Proof.
  assert (Hparse : ∀ html, ∃ bound0, ∀ bound, bound0 ≤ bound →
            ∃ parsed, parseHtmlH1H2Tables parseDocument bound html
                      = Done parsed).
  { intros html. unfold parseHtmlH1H2Tables.
    assert (Hb : ∃ bound0, enoughFuel bound0 (parseDocument html)).
    { unfold enoughFuel.
      induction (h1Elements (parseDocument html)) as [|h l [b IH]].
      - by exists 0.
      - exists (max (length (following h)) b). constructor; [lia|].
        eapply Forall_impl; [exact IH|]. simpl. intros; lia. }
    destruct Hb as [bound0 Hb]. exists bound0. intros bound Hle.
    eexists. apply extract_allSections.
    eapply Forall_impl; [exact Hb|]. simpl. intros; lia. }
  unfold fetch_handler, fetch_try, uploadParsedFile.
  destruct (falsy (header_x_api_key request) || _).
  { split; [done|]. exists 0. intros. eexists _, _. split; [done|]. auto. }
  destruct (falsy (param_file request)).
  { split; [done|]. exists 0. intros. eexists _, _. split; [done|]. auto. }
  destruct (falsy (param_userId request)).
  { split; [done|]. exists 0. intros. eexists _, _. split; [done|]. auto. }
  destruct (global_fetch w _) as [m|[|] st [html|m]];
    try (split; [done|]; exists 0; intros; eexists _, _;
         split; [done|]; simpl; auto).
  simpl. split.
  - intros bound.
    destruct (parseHtmlH1H2Tables parseDocument bound html); try done.
    by destruct (env_MY_BUCKET_put w _ _).
  - destruct (Hparse html) as [bound0 Hb]. exists bound0. intros bound Hle.
    destruct (Hb bound Hle) as [parsed ->].
    destruct (env_MY_BUCKET_put w _ _); eexists _, _; (split; [done|]);
      simpl; auto.
Qed.
(** X19.  A response with status 500 is sent only when reading the file
    failed (the fetch rejected, the response was not ok, or reading its
    text rejected), and then nothing has been stored, or when storing the
    object failed; its body is [Error: ] followed by the message of that
    failure.  Parsing the file never leads to it. *)
Theorem status_500_only_from_fetch_or_put bound w request response calls :
  fetch_handler parseDocument typeErrorMessage bound w request
  = Done (response, calls) →
  status response = 500 →
  ∃ fileUrl message,
    param_file request = Some fileUrl
    ∧ response
      = {| status := 500; body := lit "Error: " ++ message; headers := [] |}
    ∧ ((calls = [CallFetch fileUrl]
        ∧ (global_fetch w fileUrl = FetchRejected message
           ∨ (∃ statusText text,
                global_fetch w fileUrl = FetchResponse false statusText text
                ∧ message = lit "Failed to fetch file: " ++ statusText)
           ∨ (∃ statusText,
                global_fetch w fileUrl
                = FetchResponse true statusText (inr message))))
       ∨ (∃ key value,
            calls = [CallFetch fileUrl; CallPut key value]
            ∧ env_MY_BUCKET_put w key value = Some message)).
Proof.
  intros [(_ & -> & _)|[(_ & -> & _)|(_ & f & u & Hf & _ & _ & _ & Htry)]]%fetch_handler_inv;
    [done | done |].
  apply fetch_try_inv in Htry
    as [(-> & m & -> & Hcause)
       |(? & ? & ? & _ & _ & -> & [(m & Hput & ->)|(_ & ->)])];
    [| |done]; intros _; exists f, m; (split_and!; [done | done |]).
  - by left.
  - right. by eexists _, _.
Qed.
End WorkerProperties.

Lemma fetch_only_for_valid_requests_witness :
  ∃ response calls,
    fetch_handler (fun _ => scenarioA) (lit "TypeError") 5
      sampleWorld sampleRequest
    = Done (response, calls)
    ∧ (∀ url, CallFetch url ∈ calls →
         authorized sampleWorld sampleRequest
         ∧ param_file sampleRequest = Some url ∧ url ≠ []
         ∧ ∃ userId, param_userId sampleRequest = Some userId ∧ userId ≠ [])
    ∧ (calls = []
       ∨ (∃ fileUrl, calls = [CallFetch fileUrl])
       ∨ (∃ fileUrl key value,
            calls = [CallFetch fileUrl; CallPut key value])).
Proof.
  eexists _, _. split; [vm_compute; reflexivity|].
  eapply (fetch_only_for_valid_requests (fun _ => scenarioA) (lit "TypeError")
           5 sampleWorld sampleRequest).
  vm_compute. reflexivity.
Defined.

Lemma missing_parameters_are_rejected_witness :
  (falsy (param_file sampleRequestWithoutUser) = true →
   fetch_handler (fun _ => scenarioA) (lit "TypeError") 5 sampleWorld
     sampleRequestWithoutUser
   = Done ({| status := 400; body := lit "Missing file parameter";
              headers := [] |}, []))
  ∧ (falsy (param_file sampleRequestWithoutUser) = false →
     falsy (param_userId sampleRequestWithoutUser) = true →
     fetch_handler (fun _ => scenarioA) (lit "TypeError") 5 sampleWorld
       sampleRequestWithoutUser
     = Done ({| status := 400; body := lit "Missing userId parameter";
                headers := [] |}, []))
  ∧ (∀ response calls,
       fetch_handler (fun _ => scenarioA) (lit "TypeError") 5 sampleWorld
         sampleRequestWithoutUser
       = Done (response, calls) →
       status response = 400 →
       falsy (param_file sampleRequestWithoutUser) = true
       ∨ falsy (param_userId sampleRequestWithoutUser) = true).
Proof.
  apply (missing_parameters_are_rejected (fun _ => scenarioA)
           (lit "TypeError") 5 sampleWorld sampleRequestWithoutUser).
  exists (lit "secret"). split_and!; [discriminate | reflexivity..].
Defined.

Lemma stored_object_is_the_parsed_file_witness :
  ∃ response calls key value,
    fetch_handler (fun _ => scenarioA) (lit "TypeError") 5
      sampleWorld sampleRequest
    = Done (response, calls)
    ∧ CallPut key value ∈ calls
    ∧ ∃ fileUrl userId statusText htmlContent jsonResult,
        param_file sampleRequest = Some fileUrl
        ∧ param_userId sampleRequest = Some userId
        ∧ global_fetch sampleWorld fileUrl
          = FetchResponse true statusText (inl htmlContent)
        ∧ parseHtmlH1H2Tables (fun _ => scenarioA) 5 htmlContent
          = Done jsonResult
        ∧ key = numberToString (Date_now sampleWorld) ++ lit "-" ++ userId
                ++ lit "-data"
        ∧ value = JSON_stringify_2 (jsonOfParsedData jsonResult)
        ∧ calls = [CallFetch fileUrl; CallPut key value].
Proof.
  eexists _, _, _, _.
  split; [vm_compute; reflexivity|].
  split; [apply list_elem_of_lookup; exists 1; reflexivity|].
  eapply (stored_object_is_the_parsed_file (fun _ => scenarioA)
           (lit "TypeError") 5 sampleWorld sampleRequest).
  - vm_compute. reflexivity.
  - apply list_elem_of_lookup. exists 1. reflexivity.
Defined.

Lemma success_names_the_stored_object_witness :
  ∃ response calls,
    fetch_handler (fun _ => scenarioA) (lit "TypeError") 5
      sampleWorld sampleRequest
    = Done (response, calls)
    ∧ status response = 200
    ∧ ∃ fileUrl key value,
        calls = [CallFetch fileUrl; CallPut key value]
        ∧ env_MY_BUCKET_put sampleWorld key value = None.
Proof.
  eexists _, _. split; [vm_compute; reflexivity|].
  split; [reflexivity|].
  lazymatch goal with
  | |- ∃ _ _ _, ?calls = _ ∧ _ =>
      eapply (proj1 (proj1 (success_names_the_stored_object
                              (fun _ => scenarioA) (lit "TypeError") 5
                              sampleWorld sampleRequest
                              {| status := 200; body := _; headers := _ |}
                              calls _)))
  end.
  reflexivity.
  Unshelve. 3: { vm_compute. reflexivity. }
Defined.

Lemma unreadable_file_gives_500_witness :
  fetch_handler (fun _ => scenarioA) (lit "TypeError") 5 sampleWorld
    {| header_x_api_key := Some (lit "secret");
       param_file := Some (lit "https://files.example/missing.html");
       param_userId := Some (lit "u42") |}
  = Done ({| status := 500;
             body := lit "Error: "
                     ++ lit "Failed to fetch file: " ++ lit "Not Found";
             headers := [] |},
          [CallFetch (lit "https://files.example/missing.html")]).
Proof.
  apply (unreadable_file_gives_500 (fun _ => scenarioA) (lit "TypeError") 5
           sampleWorld _ _ (lit "u42")).
  - exists (lit "secret"). split_and!; [discriminate | reflexivity..].
  - reflexivity.
  - discriminate.
  - reflexivity.
  - discriminate.
  - right. left. exists (lit "Not Found"), (inl []). split; reflexivity.
Defined.

Lemma status_500_only_from_fetch_or_put_witness :
  ∃ response calls,
    fetch_handler (fun _ => scenarioA) (lit "TypeError") 5
      sampleWorldFullBucket sampleRequest
    = Done (response, calls)
    ∧ status response = 500
    ∧ ∃ fileUrl message,
        param_file sampleRequest = Some fileUrl
        ∧ response
          = {| status := 500; body := lit "Error: " ++ message;
               headers := [] |}
        ∧ ((calls = [CallFetch fileUrl]
            ∧ (global_fetch sampleWorldFullBucket fileUrl
               = FetchRejected message
               ∨ (∃ statusText text,
                    global_fetch sampleWorldFullBucket fileUrl
                    = FetchResponse false statusText text
                    ∧ message = lit "Failed to fetch file: " ++ statusText)
               ∨ (∃ statusText,
                    global_fetch sampleWorldFullBucket fileUrl
                    = FetchResponse true statusText (inr message))))
           ∨ (∃ key value,
                calls = [CallFetch fileUrl; CallPut key value]
                ∧ env_MY_BUCKET_put sampleWorldFullBucket key value
                  = Some message)).
Proof.
  eexists _, _.
  split; [vm_compute; reflexivity|].
  split; [reflexivity|].
  eapply (status_500_only_from_fetch_or_put (fun _ => scenarioA)
            (lit "TypeError") 5 sampleWorldFullBucket sampleRequest).
  - vm_compute. reflexivity.
  - reflexivity.
Defined.
